(** * drop-in-be: locale resolution and slug identity

    A shallow embedding of the product model hooks
    ([models/Product.ts]), the product repository
    ([repositories/product.repo.ts]) and the product / home-content
    controllers, followed by the properties the specification states
    about them.

    JavaScript strings are sequences of UTF-16 code units; the regular
    expressions of [slugify] (no [u] flag) work code unit by code unit, so
    a string is a [list N].  Objects are finite maps from property names
    to values. *)

From Stdlib Require Import NArith ZArith QArith Ascii String.
From Stdlib Require Import DecimalString DecimalN.
From stdpp Require Import base option list gmap.

#[local] Open Scope N_scope.
#[local] Set Warnings "-register-all".

(** ** JavaScript strings *)

Module JS.

Definition jsstring := list N.

(** An ASCII literal as a JavaScript string. *)
Definition js (s : string) : jsstring :=
  (λ a, N_of_ascii a) <$> list_ascii_of_string s.

Definition between (lo hi c : N) : bool := (lo <=? c) && (c <=? hi).

(** The character class [[a-z0-9]]. *)
Definition is_alnum (c : N) : bool := between 97 122 c || between 48 57 c.

(** The character class [[\u0300-\u036f]], the combining diacritical
    marks. *)
Definition is_combining (c : N) : bool := between 768 879 c.

Definition hyphen : N := 45.

Definition is_hyphen (c : N) : bool := c =? hyphen.

Definition is_ascii (c : N) : bool := c <? 128.

(** ECMAScript WhiteSpace and LineTerminator code units, the ones
    [String.prototype.trim] removes. *)
Definition is_space (c : N) : bool :=
  between 9 13 c || (c =? 32) || (c =? 160) || (c =? 5760)
  || between 8192 8202 c || (c =? 8232) || (c =? 8233) || (c =? 8239)
  || (c =? 8287) || (c =? 12288) || (c =? 65279).

Fixpoint trimStart (s : jsstring) : jsstring :=
  match s with
  | c :: r => if is_space c then trimStart r else s
  | [] => []
  end.

Definition trimEnd (s : jsstring) : jsstring := reverse (trimStart (reverse s)).

Definition trim (s : jsstring) : jsstring := trimEnd (trimStart s).

(** [x.trim().length > 0] *)
Definition nonblank (s : jsstring) : bool :=
  match trim s with [] => false | _ => true end.

(** Truthiness of a string: the empty string is the only falsy one. *)
Definition truthy_str (s : jsstring) : bool :=
  match s with [] => false | _ => true end.

(** [a || b] where [a] is a string or undefined. *)
Definition or_else (a : option jsstring) (b : option jsstring) : option jsstring :=
  match a with
  | Some s => if truthy_str s then a else b
  | None => b
  end.

(** The lower-case mapping on ASCII code units. *)
Definition lower_ascii (c : N) : N := if between 65 90 c then c + 32 else c.

(** Decimal rendering of a counter inside a template literal. *)
Definition decimal (n : N) : jsstring := js (NilEmpty.string_of_uint (N.to_uint n)).

(** The engine built-ins that need the Unicode character database:
    [String.prototype.normalize("NFKD")] and
    [String.prototype.toLowerCase]. *)
Class Builtins := {
  nfkd : jsstring → jsstring;
  toLowerCase : jsstring → jsstring
}.

(** What the Unicode standard fixes about them on ASCII text: no ASCII
    character decomposes, and only [A-Z] changes under lower-casing. *)
Class BuiltinsSpec `{Builtins} : Prop := {
  nfkd_ascii : ∀ s, forallb is_ascii s = true → nfkd s = s;
  toLowerCase_ascii :
    ∀ s, forallb is_ascii s = true → toLowerCase s = lower_ascii <$> s
}.

(** The built-ins restricted to ASCII text. *)
Definition ascii_builtins : Builtins :=
  {| nfkd := λ s, s; toLowerCase := λ s, lower_ascii <$> s |}.

(** [DEFAULT_LOCALE] of [i18n/types], the process-wide default locale. *)
Class Config := { DEFAULT_LOCALE : jsstring }.

Definition vi_default : Config := {| DEFAULT_LOCALE := js "vi" |}.

(** Values of the JSON data the controllers pass around.  A number from
    a JSON body is a finite double, hence a rational. *)
Inductive jsval :=
| VUndefined
| VNull
| VBool (b : bool)
| VNum (q : Q)
| VStr (s : jsstring)
| VArr (l : list jsval)
| VObj (o : gmap jsstring jsval).

Definition typeof_string (v : jsval) : option jsstring :=
  match v with VStr s => Some s | _ => None end.

Definition truthy (v : jsval) : bool :=
  match v with
  | VUndefined | VNull => false
  | VBool b => b
  | VNum q => negb (Qeq_bool q 0)
  | VStr s => truthy_str s
  | VArr _ | VObj _ => true
  end.

(** [a || b] on values. *)
Definition vor (a b : jsval) : jsval := if truthy a then a else b.

(** The indexed elements of an array or of a string, as properties. *)
Definition indexed {A} (f : A → jsval) (l : list A) : gmap jsstring jsval :=
  list_to_map (imap (λ i x, (decimal (N.of_nat i), f x)) l).

(** [v?.[k]] on own properties.  What a value inherits from its
    prototype is a function or an object, and [length] is a number:
    no caller below tells them apart from [undefined]. *)
Definition get (v : jsval) (k : jsstring) : jsval :=
  match v with
  | VObj o => default VUndefined (o !! k)
  | VArr l => default VUndefined (indexed id l !! k)
  | VStr s => default VUndefined (indexed (λ c, VStr [c]) s !! k)
  | _ => VUndefined
  end.

(** [{...v}]: the own enumerable properties. *)
Definition spread (v : jsval) : gmap jsstring jsval :=
  match v with
  | VObj o => o
  | VArr l => indexed id l
  | VStr s => indexed (λ c, VStr [c]) s
  | _ => ∅
  end.

(** A [string | undefined] result stored as a property. *)
Definition of_option (r : option jsstring) : jsval :=
  match r with Some s => VStr s | None => VUndefined end.

End JS.

Import JS.

(** ** models/Product.ts *)

Module ProductModel.

(** [LocalizedString] of [i18n/types]: locale code to text, any locale
    possibly missing. *)
Abbreviation LocalizedString := (gmap jsstring jsstring).

(** An ObjectId.  The repository is called with the text of a route
    parameter, which Mongoose casts before [findById] queries; a text
    that is no ObjectId makes the call reject with a [CastError] before
    anything is read or written.  The functions below are modelled from
    the cast id on, so they say nothing about that rejection. *)
Definition ObjectId := N.

(** [IProduct], with the schema paths the hooks and the repository read
    spelled out.  [others] holds the remaining paths as the payload hands
    them in: what Mongoose makes of them (casting, the schema defaults of
    [tags], [temperatureOptions], [isBestSeller], [bestSellerStats] and
    [isSignatureLineup], the timestamps) is not modelled, so [others]
    only feeds the validators that [others_valid] stands for, and no
    property of a stored product is stated about it. *)
Record IProduct := {
  _id : ObjectId;
  name_i18n : option LocalizedString;
  slug : option jsstring;
  category : option jsstring;
  price : option Q;
  isPublished : bool;
  others : gmap jsstring jsval
}.

(** A Mongoose document in memory: the paths, [isNew], and whether
    [isModified("slug")] holds. *)
Record Document := {
  paths : IProduct;
  isNew : bool;
  slug_modified : bool
}.

(** The [products] collection. *)
Definition Collection := list IProduct.

Inductive Error :=
| PRODUCT_NAME_DUPLICATE
| ValidationError.

(** A call that returns, with the collection it leaves behind, or
    throws. *)
Inductive outcome (A : Type) :=
| Returns (a : A) (db : Collection)
| Throws (e : Error) (db : Collection).
Arguments Returns {A} a db.
Arguments Throws {A} e db.

Definition collection_of {A} (r : outcome A) : Collection :=
  match r with Returns _ db | Throws _ db => db end.

Definition categories : list jsstring :=
  js <$> ["coffee"; "tea"; "cake"; "other drinks"; "espresso"; "cold brew";
          "chocolate"; "green teas"; "other teas"; "matcha"]%string.

Section Hooks.
Context `{Builtins} `{Config}.

(** [.replace(/[\u0300-\u036f]/g, "")] *)
Definition strip_marks (s : jsstring) : jsstring :=
  List.filter (λ c, negb (is_combining c)) s.

(** [.replace(/[^a-z0-9]+/g, "-")]: a left-to-right scan; [in_run] says
    that the previous code unit already belonged to the run being
    replaced. *)
Fixpoint collapse_runs (in_run : bool) (s : jsstring) : jsstring :=
  match s with
  | [] => []
  | c :: r =>
      if is_alnum c then c :: collapse_runs false r
      else if in_run then collapse_runs true r
      else hyphen :: collapse_runs true r
  end.

Definition drop_leading_hyphen (s : jsstring) : jsstring :=
  match s with
  | c :: r => if is_hyphen c then r else s
  | [] => []
  end.

Fixpoint drop_trailing_hyphen (s : jsstring) : jsstring :=
  match s with
  | [] => []
  | [c] => if is_hyphen c then [] else [c]
  | c :: r => c :: drop_trailing_hyphen r
  end.

(** [.replace(/(^-|-$)+/g, "")]: without the [m] flag [^-] can match at
    index 0 only and [-$] at the last index only, so one hyphen goes at
    each end (both of a string made of two hyphens). *)
Definition strip_edge_hyphens (s : jsstring) : jsstring :=
  drop_trailing_hyphen (drop_leading_hyphen s).

Definition slugify (text : jsstring) : jsstring :=
  strip_edge_hyphens
    (collapse_runs false
       (trim (toLowerCase (strip_marks (nfkd text))))).

(** The setters the schema declares on [slug] ([trim], [lowercase]);
    Mongoose runs them on every assignment to the path. *)
Definition slug_setter (v : jsstring) : jsstring := trim (toLowerCase v).

(** [doc.slug = v]: the path is marked modified when its value
    changes. *)
Definition set_slug (v : option jsstring) (doc : Document) : Document :=
  let v' := slug_setter <$> v in
  if decide (v' = slug (paths doc)) then doc
  else {| paths := {| _id := _id (paths doc);
                      name_i18n := name_i18n (paths doc);
                      slug := v';
                      category := category (paths doc);
                      price := price (paths doc);
                      isPublished := isPublished (paths doc);
                      others := others (paths doc) |};
          isNew := isNew doc;
          slug_modified := true |}.

(** [doc.name_i18n?.[loc]] *)
Definition name_at (p : IProduct) (loc : jsstring) : option jsstring :=
  name_i18n p ≫= (λ n, n !! loc).

(** [nameEn || nameDefault || nameVi], undefined or empty when none is
    truthy. *)
Definition name_base (p : IProduct) : option jsstring :=
  or_else (name_at p (js "en"))
    (or_else (name_at p DEFAULT_LOCALE) (name_at p (js "vi"))).

(** [x || "product"] *)
Definition or_product (x : option jsstring) : jsstring :=
  match x with
  | Some s => if truthy_str s then s else js "product"
  | None => js "product"
  end.

(** [ProductModel.exists({ slug: candidate, _id: { $ne: id } })] *)
Definition slug_exists (db : Collection) (id : ObjectId) (candidate : jsstring) : bool :=
  existsb (λ p, bool_decide (slug p = Some candidate) && negb (_id p =? id)) db.

(** The [while] loop of [ensureUniqueSlug]; [taken] is the awaited
    existence query, [fuel] bounds the number of queries. *)
(** [`${base}-${i}`] *)
Definition suffixed (base : jsstring) (i : N) : jsstring := base ++ hyphen :: decimal i.

Fixpoint probe (fuel : nat) (taken : jsstring → bool)
    (base candidate : jsstring) (i : N) : option jsstring :=
  match fuel with
  | O => None
  | S fuel' =>
      if taken candidate
      then probe fuel' taken base (suffixed base i) (i + 1)
      else Some candidate
  end.

Definition baseInput (p : IProduct) : jsstring :=
  or_product (or_else (slug p) (name_base p)).

(** The candidate [ensureUniqueSlug] settles on.  Every document of the
    collection answers at most one query positively, so one query more
    than there are documents is enough; [None] would be a loop that has
    not ended by then. *)
Definition unique_candidate (db : Collection) (p : IProduct) : option jsstring :=
  let base := slugify (baseInput p) in
  let candidate := or_product (Some base) in
  probe (S (length db)) (slug_exists db (_id p)) base candidate 2.

Definition ensureUniqueSlug (db : Collection) (doc : Document) : option Document :=
  (λ candidate, set_slug (Some candidate) doc) <$> unique_candidate db (paths doc).

(** [ProductSchema.pre("validate")] *)
Definition preValidate (doc : Document) : Document :=
  let p := paths doc in
  if truthy_str (default [] (slug p))
  then set_slug (slugify <$> slug p) doc
  else set_slug (Some (slugify (or_product (name_base p)))) doc.

(** [ProductSchema.pre("save")] *)
Definition preSave (db : Collection) (doc : Document) : option Document :=
  if isNew doc || slug_modified doc then ensureUniqueSlug db doc else Some doc.

(** The schema validators of the modelled paths: [name_i18n], [slug]
    and [price] are required (an empty string does not satisfy
    [required]), [slug] has at most 160 code units, [category] is one of
    the enum, [price] is not negative.  [others_valid] stands for the
    validators of the remaining paths. *)
Definition valid (others_valid : gmap jsstring jsval → bool) (p : IProduct) : bool :=
  bool_decide (is_Some (name_i18n p))
  && match slug p with
     | Some s => truthy_str s && bool_decide (length s ≤ 160)%nat
     | None => false
     end
  && match category p with
     | Some c => bool_decide (c ∈ categories)
     | None => true
     end
  && match price p with
     | Some q => Qle_bool 0 q
     | None => false
     end
  && others_valid (others p).

(** Writing a validated document back: an insert when it is new, a
    replacement of the stored document with its [_id] otherwise. *)
Definition persist (db : Collection) (doc : Document) : Collection :=
  if isNew doc then db ++ [paths doc]
  else (λ q, if _id q =? _id (paths doc) then paths doc else q) <$> db.

(** [doc.save()]: the [validate] hook, validation, the [save] hook, the
    write.  [None] only if the loop of [ensureUniqueSlug] has not
    ended. *)
Definition save (others_valid : gmap jsstring jsval → bool)
    (db : Collection) (doc : Document) : option (outcome IProduct) :=
  let doc1 := preValidate doc in
  if valid others_valid (paths doc1) then
    (λ doc2, Returns (paths doc2) (persist db doc2)) <$> preSave db doc1
  else Some (Throws ValidationError db).

End Hooks.
End ProductModel.

(** ** repositories/product.repo.ts *)

Module ProductRepo.
Import ProductModel.

(** [Partial<IProduct>]: [None] is a key the payload does not have.  For
    [slug] the code also asks whether the value is a string, so a present
    key holds a string or something else ([null]). *)
Record Payload := {
  p_name_i18n : option LocalizedString;
  p_slug : option (option jsstring);
  p_category : option jsstring;
  p_price : option Q;
  p_isPublished : option bool;
  p_others : gmap jsstring jsval
}.

Definition DEFAULT_CATEGORY : jsstring := js "coffee".

Section Repo.
Context `{Builtins} `{Config}.
Variable others_valid : gmap jsstring jsval → bool.

Definition slugify (text : jsstring) : jsstring :=
  ProductModel.slugify (if truthy_str text then text else []).

(** [name.vi] / [name.en] when truthy: the value the filter compares
    with. *)
Definition name_key (name : LocalizedString) (loc : jsstring) : option jsstring :=
  match name !! loc with
  | Some v => if truthy_str v then Some v else None
  | None => None
  end.

(** The [or] array [ensureUniqueName] builds. *)
Definition or_filter (name : LocalizedString) : list (jsstring * jsstring) :=
  match name_key name (js "vi") with
  | Some v => [(js "vi", v)]
  | None => []
  end ++
  match name_key name (js "en") with
  | Some v => [(js "en", v)]
  | None => []
  end.

(** One document against [{ category, $or: or, _id: { $ne: excludeId } }]. *)
Definition matches (category : jsstring) (or : list (jsstring * jsstring))
    (excludeId : option ObjectId) (p : IProduct) : bool :=
  bool_decide (ProductModel.category p = Some category)
  && existsb (λ '(loc, v), bool_decide (name_at p loc = Some v)) or
  && match excludeId with
     | Some id => negb (_id p =? id)
     | None => true
     end.

(** [ensureUniqueName]: the error it throws, if any. *)
Definition ensureUniqueName (db : Collection) (category : option jsstring)
    (name : option LocalizedString) (excludeId : option ObjectId) : option Error :=
  match category, name with
  | Some category, Some name =>
      if truthy_str category then
        let or := or_filter name in
        match or with
        | [] => None
        | _ =>
            if existsb (matches category or excludeId) db
            then Some PRODUCT_NAME_DUPLICATE
            else None
        end
      else None
  | _, _ => None
  end.

(** [new ProductModel({ ...data, category })], with the [_id] Mongoose
    generates for it and the schema default of [isPublished]; the other
    paths are carried as the payload has them (see [others]). *)
Definition construct (new_id : ObjectId) (data : Payload) (category : jsstring) : Document :=
  {| paths := {| _id := new_id;
                 name_i18n := p_name_i18n data;
                 slug := slug_setter <$> mjoin (p_slug data);
                 category := Some category;
                 price := p_price data;
                 isPublished := default true (p_isPublished data);
                 others := p_others data |};
     isNew := true;
     slug_modified := bool_decide (is_Some (mjoin (p_slug data))) |}.

(** [data.category || DEFAULT_CATEGORY] *)
Definition new_category (data : Payload) : jsstring :=
  match p_category data with
  | Some c => if truthy_str c then c else DEFAULT_CATEGORY
  | None => DEFAULT_CATEGORY
  end.

Definition create (db : Collection) (new_id : ObjectId) (data : Payload)
    : option (outcome IProduct) :=
  let category := new_category data in
  match ensureUniqueName db (Some category) (p_name_i18n data) None with
  | Some e => Some (Throws e db)
  | None => save others_valid db (construct new_id data category)
  end.

(** [Object.assign(doc, data)]; the other paths of the payload are laid
    over the stored ones as they are (see [others]). *)
Definition assign (doc : Document) (data : Payload) : Document :=
  let p := paths doc in
  let doc1 :=
    {| paths := {| _id := _id p;
                   name_i18n := from_option Some (name_i18n p) (p_name_i18n data);
                   slug := slug p;
                   category := from_option Some (category p) (p_category data);
                   price := from_option Some (price p) (p_price data);
                   isPublished := default (isPublished p) (p_isPublished data);
                   others := p_others data ∪ others p |};
       isNew := isNew doc;
       slug_modified := slug_modified doc |} in
  match p_slug data with
  | Some v => set_slug v doc1
  | None => doc1
  end.

(** [a || b || c || ""] over the name of a document *)
Definition nameBase (p : IProduct) : jsstring :=
  match name_base p with
  | Some s => s
  | None => []
  end.

Definition hasSlugInBody (data : Payload) : option jsstring :=
  match p_slug data with
  | Some (Some s) => if nonblank s then Some s else None
  | _ => None
  end.

Definition findById (db : Collection) (id : ObjectId) : option IProduct :=
  find (λ p, _id p =? id) db.

(** A document as [findById] hands it over. *)
Definition loaded (p : IProduct) : Document :=
  {| paths := p; isNew := false; slug_modified := false |}.

Definition update (db : Collection) (id : ObjectId) (data : Payload)
    : option (outcome (option IProduct)) :=
  match findById db id with
  | None => Some (Returns None db)
  | Some p =>
      let doc := loaded p in
      let oldNameBase := nameBase p in
      let newCategory := or_else (p_category data) (category p) in
      let newName := from_option Some (name_i18n p) (p_name_i18n data) in
      match ensureUniqueName db newCategory newName (Some (_id p)) with
      | Some e => Some (Throws e db)
      | None =>
          let doc1 := assign doc data in
          let newNameBase := nameBase (paths doc1) in
          let doc2 :=
            match hasSlugInBody data with
            | Some s => set_slug (Some (slugify s)) doc1
            | None =>
                if truthy_str newNameBase && negb (bool_decide (newNameBase = oldNameBase))
                then set_slug (Some (slugify newNameBase)) doc1
                else doc1
            end in
          match save others_valid db doc2 with
          | Some (Returns q db') => Some (Returns (Some q) db')
          | Some (Throws e db') => Some (Throws e db')
          | None => None
          end
      end
  end.

(** The collection [ProductModel.findByIdAndDelete(id)] leaves, for an
    [id] that is an ObjectId: the first document with it is gone. *)
Fixpoint without (id : ObjectId) (db : Collection) : Collection :=
  match db with
  | [] => []
  | p :: rest => if _id p =? id then rest else p :: without id rest
  end.

(** [ProductModel.findOne({ slug, isPublished: true })]: Mongoose casts
    the filter with the schema, which runs the setters of [slug]
    ([lowercase], [trim]) on the text asked for before the stored slugs
    are compared with it. *)
Definition getBySlug (db : Collection) (slug : jsstring) : option IProduct :=
  find (λ p, bool_decide (ProductModel.slug p = Some (slug_setter slug)) && isPublished p) db.

End Repo.
End ProductRepo.


(** ** controllers/product.controller.ts *)

Module ProductController.

Definition TEMP_OPTIONS : list jsstring := js <$> ["hot"; "iced"; "both"; "warm"]%string.

Definition L_FIELDS : list jsstring :=
  js <$> ["name"; "shortDescription"; "description"; "seoTitle"; "seoDescription"]%string.

(** The parts of an Express request the handlers read. *)
Record Request := {
  body : jsval;
  query : jsval;
  headers : gmap jsstring jsval;
  params : gmap jsstring jsstring
}.

(** What a handler has sent when it returns. *)
Record Response := {
  status : N;
  sent_headers : gmap jsstring jsstring;
  json : jsval
}.

(** An awaited repository call: the value it resolves to, or the
    [code] and [message] of the error it rejects with. *)
Inductive awaited (A : Type) :=
| Resolved (a : A)
| Rejected (code : jsval) (message : jsval).
Arguments Resolved {A} a.
Arguments Rejected {A} code message.

Definition message (m : jsval) : jsval := VObj {[ js "message" := m ]}.

(** [res.status(n).json(v)] with no header set *)
Definition respond (n : N) (v : jsval) : Response :=
  {| status := n; sent_headers := ∅; json := v |}.

(** [res.setHeader("Vary", "Accept-Language")] followed by [res.json(v)] *)
Definition respond_vary (v : jsval) : Response :=
  {| status := 200;
     sent_headers := {[ js "Vary" := js "Accept-Language" ]};
     json := v |}.

Definition shouldLocalize (req : Request) : bool :=
  if truthy (query req) && truthy (get (query req) (js "locale")) then true
  else
    match headers req !! js "accept-language" with
    | Some (VStr acceptLang) => nonblank acceptLang
    | _ => false
    end.

(** The insertion-ordered [Set] an array is turned into, and back:
    an element is appended unless the set already has it. *)
Definition set_add (seen : list jsstring) (x : jsstring) : list jsstring :=
  if bool_decide (x ∈ seen) then seen else seen ++ [x].

Definition array_from_set (xs : list jsstring) : list jsstring :=
  foldl set_add [] xs.

Section Controller.
Context `{Config}.

Definition buildLocalePriority (locale : jsval) : list jsstring :=
  array_from_set
    (omap (λ x, typeof_string x ≫= λ s, if nonblank s then Some s else None)
       [locale; VStr (js "en"); VStr DEFAULT_LOCALE; VStr (js "vi")]).

(** The [for] loop of [pickLocalizedValue]. *)
Fixpoint pick_loop (value : jsval) (locales : list jsstring) : option jsstring :=
  match locales with
  | [] => None
  | loc :: rest =>
      match get value loc with
      | VStr v => if nonblank v then Some v else pick_loop value rest
      | _ => pick_loop value rest
      end
  end.

Definition pickLocalizedValue (value : jsval) (locales : list jsstring) : option jsstring :=
  if negb (truthy value) then None
  else
    match value with
    | VStr s => Some s
    | _ => pick_loop value locales
    end.

Definition attachMetaFields (product : jsval) (locale : jsval) : jsval :=
  let locales := buildLocalePriority locale in
  let metaTitle :=
    or_else (pickLocalizedValue (get product (js "seoTitle_i18n")) locales)
            (pickLocalizedValue (get product (js "name_i18n")) locales) in
  let metaDescription :=
    or_else (pickLocalizedValue (get product (js "seoDescription_i18n")) locales)
      (or_else (pickLocalizedValue (get product (js "shortDescription_i18n")) locales)
               (pickLocalizedValue (get product (js "description_i18n")) locales)) in
  VObj (<[ js "metaDescription" := of_option metaDescription ]>
          (<[ js "metaTitle" := of_option metaTitle ]> (spread product))).

End Controller.

(** The shape [productRepo.list] resolves to. *)
Record ListResult := {
  items : list jsval;
  total : Q;
  page : Q;
  limit : Q
}.

Definition list_json (r : ListResult) (items' : list jsval) : jsval :=
  VObj (<[ js "items" := VArr items' ]>
          {[ js "items" := VArr (items r); js "total" := VNum (total r);
             js "page" := VNum (page r); js "limit" := VNum (limit r) ]}).

(** [typeof body.price !== "number" || Number.isNaN(body.price) || body.price < 0];
    no number of this model is NaN. *)
Definition bad_price (v : jsval) : bool :=
  match v with
  | VNum q => negb (Qle_bool 0 q)
  | _ => true
  end.

(** [!Array.isArray(v) || !v.every((opt) => TEMP_OPTIONS.includes(opt))] *)
Definition bad_temperatureOptions (v : jsval) : bool :=
  match v with
  | VArr l =>
      negb (forallb (λ opt, match opt with
                            | VStr s => bool_decide (s ∈ TEMP_OPTIONS)
                            | _ => false
                            end) l)
  | _ => true
  end.

Definition is_undefined (v : jsval) : bool :=
  match v with VUndefined => true | _ => false end.

(** [typeof body === "object"] for a truthy body *)
Definition is_object (v : jsval) : bool :=
  match v with VObj _ | VArr _ => true | _ => false end.

Definition temperature_message : jsstring :=
  js "temperatureOptions must be an array of: hot, iced, both, warm".

Section Handlers.
Context `{Config}.

(** [detectLocale], [localizeDoc] and [localizeList] of [i18n/localize],
    and [JSON.parse]. *)
Variable detectLocale : jsval → jsstring.
Variable localizeDoc : jsval → jsval → list jsstring → jsval.
Variable localizeList : list jsval → jsval → list jsstring → list jsval.
Variable JSON_parse : jsstring → awaited jsval.

(** [req.query.locale || detectLocale(req.headers["accept-language"])] *)
Definition request_locale (req : Request) : jsval :=
  vor (get (query req) (js "locale"))
      (VStr (detectLocale (default VUndefined (headers req !! js "accept-language")))).

(** The [catch] block of [createProduct] and [updateProduct]. *)
Definition write_failed (fallback : jsstring) (code msg : jsval) : Response :=
  if bool_decide (typeof_string code = Some (js "PRODUCT_NAME_DUPLICATE"))
  then respond 409 (message (vor msg (VStr (js "Product name already exists in this category"))))
  else respond 400 (message (vor msg (VStr fallback))).

(** [createProduct]; [created] is what the awaited
    [productRepo.create(body)] comes back with, already a plain
    object. *)
Definition createProduct (req : Request) (created : jsval → awaited jsval) : Response :=
  let failed := write_failed (js "Create product failed") in
  let parsed :=
    match body req with
    | VStr s => JSON_parse s
    | b => Resolved b
    end in
  match parsed with
  | Rejected code msg => failed code msg
  | Resolved body =>
      if negb (truthy body) || negb (is_object body)
      then respond 400 (message (VStr (js "Missing JSON body")))
      else if negb (truthy (get body (js "name_i18n")))
              || (negb (truthy (get (get body (js "name_i18n")) (js "vi")))
                  && negb (truthy (get (get body (js "name_i18n")) (js "en"))))
      then respond 400 (message (VStr (js "At least one localized name (vi/en) is required")))
      else if bad_price (get body (js "price"))
      then respond 400 (message (VStr (js "price must be a non-negative number")))
      else if negb (is_undefined (get body (js "temperatureOptions")))
              && bad_temperatureOptions (get body (js "temperatureOptions"))
      then respond 400 (message (VStr temperature_message))
      else
        match created body with
        | Rejected code msg => failed code msg
        | Resolved obj =>
            let locale := request_locale req in
            let withMeta := attachMetaFields obj locale in
            respond 201 withMeta
        end
  end.

(** [updateProduct]; [updated] is what the awaited
    [productRepo.update(req.params.id, body)] comes back with. *)
Definition updateProduct (req : Request) (updated : jsval → awaited (option jsval)) : Response :=
  let failed := write_failed (js "Update failed") in
  let body :=
    match body req with
    | VStr s => match JSON_parse s with Resolved b => b | Rejected _ _ => VStr s end
    | b => b
    end in
  if negb (truthy body) || negb (is_object body)
  then respond 400 (message (VStr (js "Missing JSON body")))
  else if negb (is_undefined (get body (js "price"))) && bad_price (get body (js "price"))
  then respond 400 (message (VStr (js "price must be a non-negative number")))
  else if negb (is_undefined (get body (js "temperatureOptions")))
          && bad_temperatureOptions (get body (js "temperatureOptions"))
  then respond 400 (message (VStr temperature_message))
  else
    match updated body with
    | Rejected code msg => failed code msg
    | Resolved None => respond 404 (message (VStr (js "Not found")))
    | Resolved (Some obj) =>
        let locale := request_locale req in
        let withMeta := attachMetaFields obj locale in
        respond 200 withMeta
    end.

(** [getProductBySlug]; [found] is the awaited [productRepo.getBySlug]. *)
Definition getProductBySlug (req : Request) (found : awaited (option jsval)) : Response :=
  let locale := request_locale req in
  match found with
  | Rejected _ _ => respond 500 (message (VStr (js "Failed to get product")))
  | Resolved None => respond 404 (message (VStr (js "Not found")))
  | Resolved (Some obj) =>
      let withMeta := attachMetaFields obj locale in
      if negb (shouldLocalize req) then respond_vary withMeta
      else respond_vary (localizeDoc withMeta locale L_FIELDS)
  end.

(** The common body of [getProducts] and [getProductsAdmin], which
    differ in the options they pass to [productRepo.list] only. *)
Definition list_handler (failure : jsstring) (req : Request)
    (listed : awaited ListResult) : Response :=
  let locale := request_locale req in
  match listed with
  | Rejected _ _ => respond 500 (message (VStr failure))
  | Resolved result =>
      let itemsWithMeta := (λ item, attachMetaFields item locale) <$> items result in
      if negb (shouldLocalize req) then respond_vary (list_json result itemsWithMeta)
      else respond_vary (list_json result (localizeList itemsWithMeta locale L_FIELDS))
  end.

Definition getProducts := list_handler (js "Failed to list products").

Definition getProductsAdmin := list_handler (js "Failed to list products (admin)").

(** The common body of [listBestSellers] and [listSignatureLineup]. *)
Definition lineup_handler (failure : jsstring) (req : Request)
    (listed : awaited (list jsval)) : Response :=
  let locale := request_locale req in
  match listed with
  | Rejected _ _ => respond 500 (message (VStr failure))
  | Resolved items =>
      let itemsWithMeta := (λ item, attachMetaFields item locale) <$> items in
      if negb (shouldLocalize req)
      then respond_vary (VObj {[ js "items" := VArr itemsWithMeta ]})
      else respond_vary
             (VObj {[ js "items" := VArr (localizeList itemsWithMeta locale L_FIELDS) ]})
  end.

Definition listBestSellers := lineup_handler (js "Failed to list best sellers").

Definition listSignatureLineup := lineup_handler (js "Failed to list signature lineup").

End Handlers.
End ProductController.

(** ** controllers/homeContent.controller.ts *)

Module HomeContentController.
Import ProductController.

Definition L_FIELDS : list jsstring :=
  js <$> ["heroTitle"; "heroSubtitle"; "seoTitle"; "seoDescription"]%string.

Section Handlers.
Variable detectLocale : jsval → jsstring.
Variable localizeDoc : jsval → jsval → list jsstring → jsval.
Variable JSON_parse : jsstring → awaited jsval.

(** The tail shared by [getHomeContent] and [upsertHomeContent] once the
    document is there. *)
Definition render (req : Request) (plain : jsval) : Response :=
  let locale := request_locale detectLocale req in
  if negb (shouldLocalize req) then respond_vary plain
  else respond_vary (localizeDoc plain locale L_FIELDS).

(** [getHomeContent]; [home] is the awaited [homeContentRepo.getHome]. *)
Definition getHomeContent (req : Request) (home : awaited (option jsval)) : Response :=
  match home with
  | Rejected _ _ => respond 500 (message (VStr (js "Failed to get home content")))
  | Resolved None => respond 404 (message (VStr (js "Home content not found")))
  | Resolved (Some plain) => render req plain
  end.

Definition lacks_vi_en (bundle : jsval) : bool :=
  negb (truthy bundle)
  || (negb (truthy (get bundle (js "vi"))) && negb (truthy (get bundle (js "en")))).

(** [upsertHomeContent]; [upserted] and [reloaded] are the awaited
    [homeContentRepo.upsertHome(body)] and the [getHome] after it. *)
Definition upsertHomeContent (req : Request) (upserted : jsval → awaited unit)
    (reloaded : awaited (option jsval)) : Response :=
  let failed (msg : jsval) :=
    respond 400 (message (vor msg (VStr (js "Failed to upsert home content")))) in
  let body :=
    match body req with
    | VStr s => match JSON_parse s with Resolved b => b | Rejected _ _ => VStr s end
    | b => b
    end in
  if negb (truthy body) || negb (is_object body)
  then respond 400 (message (VStr (js "Missing JSON body")))
  else if lacks_vi_en (get body (js "heroTitle_i18n"))
  then respond 400 (message (VStr (js "heroTitle_i18n (vi ho" ++ [7863; 99]
                                   ++ js " en) is required")))
  else if negb (truthy (get body (js "signatureSection")))
          || lacks_vi_en (get (get body (js "signatureSection")) (js "title_i18n"))
  then respond 400 (message (VStr (js "signatureSection.title_i18n (vi ho" ++ [7863; 99]
                                   ++ js " en) is required")))
  else
    match upserted body with
    | Rejected _ msg => failed msg
    | Resolved _ =>
        match reloaded with
        | Rejected _ msg => failed msg
        | Resolved None =>
            respond 500 (message (VStr (js "Failed to reload home content after update")))
        | Resolved (Some plain) => render req plain
        end
    end.

End Handlers.
End HomeContentController.

(** ** app.ts: the CORS allow list *)

Module App.

Definition comma : N := 44.

(** [s.split(",")]: the pieces between the commas, at least one. *)
Fixpoint split_comma (s : jsstring) : list jsstring :=
  match s with
  | [] => [[]]
  | c :: rest =>
      if c =? comma then [] :: split_comma rest
      else
        match split_comma rest with
        | piece :: pieces => (c :: piece) :: pieces
        | [] => [[c]]
        end
  end.

(** [(process.env.CORS_ORIGINS || "").split(",").map((s) => s.trim()).filter(Boolean)] *)
Definition allowList (CORS_ORIGINS : option jsstring) : list jsstring :=
  List.filter truthy_str
    (trim <$> split_comma (default [] (or_else CORS_ORIGINS (Some [])))).

(** The [origin] callback of [cors]: [true] for [cb(null, true)], [false]
    for the [CORS blocked] error. *)
Definition origin_allowed (allowList : list jsstring) (origin : option jsstring) : bool :=
  match origin with
  | None => true
  | Some o =>
      if negb (truthy_str o) then true
      else if (length allowList =? 0)%nat || bool_decide (o ∈ allowList) then true
      else false
  end.

End App.

(** ** services/blogScheduler.ts: the publish interval *)

Module BlogScheduler.

(** A JavaScript number: what [Number(process.env.X)] can be. *)
Inductive number :=
| NaN
| NegInfinity
| PosInfinity
| Finite (q : Q).

Definition DEFAULT_INTERVAL_MS : number := Finite (2 * 60 * 1000).

(** [n || d] on numbers: [NaN] and zero are falsy. *)
Definition num_or (n d : number) : number :=
  match n with
  | NaN => d
  | Finite q => if Qeq_bool q 0 then d else n
  | _ => n
  end.

(** [Math.max(a, b)] *)
Definition Math_max (a b : number) : number :=
  match a, b with
  | NaN, _ | _, NaN => NaN
  | PosInfinity, _ | _, PosInfinity => PosInfinity
  | NegInfinity, x | x, NegInfinity => x
  | Finite x, Finite y => if Qle_bool x y then Finite y else Finite x
  end.

(** [intervalMs], from what [Number(process.env.BLOG_PUBLISH_INTERVAL_MS)]
    evaluates to. *)
Definition intervalMs (parsed : number) : number :=
  Math_max (num_or parsed DEFAULT_INTERVAL_MS) (Finite (30 * 1000)).

(** The longest delay a timer of Node takes: [2 ** 31 - 1]. *)
Definition TIMEOUT_MAX : Q := 2147483647.

(** [setInterval(runOnce, after)]: the delay the timer repeats with.
    Node keeps [after] when [after >= 1 && after <= TIMEOUT_MAX] and
    takes 1 otherwise (also for [NaN] and the infinities). *)
Definition setInterval (after : number) : number :=
  match after with
  | Finite q => if Qle_bool 1 q && Qle_bool q TIMEOUT_MAX then Finite q else Finite 1
  | _ => Finite 1
  end.

(** [startBlogScheduler]: the delay of the timer it returns. *)
Definition startBlogScheduler (parsed : number) : number :=
  setInterval (intervalMs parsed).

End BlogScheduler.

(** * Vocabulary of the properties and sample data *)

Import ProductModel.
Import ProductRepo.
Import ProductController.

(** A code unit a slug may hold: [[a-z0-9]] or the hyphen. *)
Definition slug_char (c : N) : bool := is_alnum c || is_hyphen c.

(** No two hyphens in a row. *)
Fixpoint single_hyphens (s : jsstring) : Prop :=
  match s with
  | a :: (b :: _) as r => ¬ (a = hyphen ∧ b = hyphen) ∧ single_hyphens r
  | _ => True
  end.

(** The shape of a slug: [[a-z0-9]] and hyphens only, no two hyphens in a
    row, none at either end. *)
Record slug_shaped (s : jsstring) : Prop := {
  shaped_chars : Forall (λ c, slug_char c = true) s;
  shaped_single : single_hyphens s;
  shaped_head : head s ≠ Some hyphen;
  shaped_last : last s ≠ Some hyphen
}.

Definition sample_others_valid (_ : gmap jsstring jsval) : bool := true.

Definition product_named (id : ObjectId) (name : LocalizedString)
    (s : option jsstring) (c : string) : IProduct :=
  {| _id := id; name_i18n := Some name; slug := s; category := Some (js c);
     price := Some 3%Q; isPublished := true; others := ∅ |}.

Definition caramel_stored : IProduct :=
  product_named 1 {[ js "en" := js "Caramel Macchiato" ]} (Some (js "caramel-macchiato")) "coffee".

Definition caramel_new : Document :=
  {| paths := product_named 2 {[ js "en" := js "Caramel Macchiato" ]} None "coffee";
     isNew := true; slug_modified := false |}.


(** The conflict the filter of [ensureUniqueName] finds: a stored
    document, not the excluded one, of the same category whose [vi] or
    [en] name equals the non-empty [vi] or [en] name asked about. *)
Definition vi_en_conflict (db : Collection) (category : jsstring)
    (name : LocalizedString) (excludeId : option ObjectId) : Prop :=
  ∃ q loc v,
    q ∈ db ∧ ProductModel.category q = Some category ∧ excludeId ≠ Some (_id q)
    ∧ (loc = js "vi" ∨ loc = js "en")
    ∧ name !! loc = Some v ∧ v ≠ [] ∧ name_at q loc = Some v.

(** The conflict as the specification words it: a stored document of the
    same category whose name equals the one asked about in at least one
    locale. *)
Definition any_locale_conflict (db : Collection) (category : jsstring)
    (name : LocalizedString) (excludeId : option ObjectId) : Prop :=
  ∃ q loc v,
    q ∈ db ∧ ProductModel.category q = Some category ∧ excludeId ≠ Some (_id q)
    ∧ name !! loc = Some v ∧ name_at q loc = Some v.

Definition mocha_stored : IProduct :=
  product_named 1 {[ js "en" := js "Mocha"; js "fr" := js "Creme" ]} (Some (js "mocha")) "coffee".

Definition latte_payload : Payload :=
  {| p_name_i18n := Some {[ js "en" := js "Latte"; js "fr" := js "Creme" ]};
     p_slug := None; p_category := Some (js "coffee"); p_price := Some 3%Q;
     p_isPublished := None; p_others := ∅ |}.

Definition latte_created : IProduct :=
  product_named 2 {[ js "en" := js "Latte"; js "fr" := js "Creme" ]} (Some (js "latte")) "coffee".

Definition creme_only : LocalizedString := {[ js "fr" := js "Creme" ]}.

Definition price_payload : Payload :=
  {| p_name_i18n := None; p_slug := None; p_category := Some (js "tea");
     p_price := Some 4.5%Q; p_isPublished := Some false;
     p_others := {[ js "tags" := VArr [VStr (js "sweet")] ]} |}.

(** The collection holds slugs the hooks produce. *)
Definition stored_slugs_shaped (db : Collection) : Prop :=
  Forall (λ q, ∃ s, slug q = Some s ∧ slug_shaped s ∧ s ≠ []) db.

(** De-duplication that keeps the first occurrence of every entry, as the
    specification words it. *)
Fixpoint first_occurrences (l : list jsstring) : list jsstring :=
  match l with
  | [] => []
  | x :: r => x :: filter (λ y, y ≠ x) (first_occurrences r)
  end.

(** The entries of an array that are strings with something left after
    trimming. *)
Definition nonblank_strings (l : list jsval) : list jsstring :=
  filter (λ s, nonblank s = true) (omap typeof_string l).

(** The text a bundle holds for a locale: a string with something left
    after trimming. *)
Definition text_at (value : jsval) (loc : jsstring) : option jsstring :=
  match get value loc with
  | VStr v => if nonblank v then Some v else None
  | _ => None
  end.

Definition ca_phe : jsstring := [67; 224; 32; 112; 104; 234].

(** The first of a list of resolved candidates that is a non-empty
    string, as the specification words it. *)
Fixpoint first_nonempty (l : list (option jsstring)) : option jsstring :=
  match l with
  | [] => None
  | Some (c :: s) :: _ => Some (c :: s)
  | _ :: r => first_nonempty r
  end.

Definition ca_phe_product : jsval :=
  VObj {[ js "name_i18n" := VObj {[ js "vi" := VStr ca_phe ]};
          js "description_i18n" := VObj {[ js "en" := VStr (js "Strong") ]};
          js "slug" := VStr (js "ca-phe") ]}.

Definition coffee_object : jsval :=
  VObj {[ js "name_i18n" := VObj {[ js "vi" := VStr ca_phe; js "en" := VStr (js "Coffee") ]};
          js "price" := VNum 3%Q;
          js "slug" := VStr (js "coffee") ]}.

(** [POST /products] with [Accept-Language: en] and a valid JSON body. *)
Definition coffee_request : Request :=
  {| body := VObj {[ js "name_i18n" := VObj {[ js "vi" := VStr ca_phe;
                                                js "en" := VStr (js "Coffee") ]};
                     js "price" := VNum 3%Q ]};
     query := VObj ∅;
     headers := {[ js "accept-language" := VStr (js "en") ]};
     params := ∅ |}.

Definition negative_price_payload : Payload :=
  {| p_name_i18n := None; p_slug := None; p_category := None;
     p_price := Some (-1)%Q; p_isPublished := None; p_others := ∅ |}.

Definition caramel_payload : Payload :=
  {| p_name_i18n := Some {[ js "en" := js "Caramel Macchiato" ]};
     p_slug := None; p_category := Some (js "tea"); p_price := Some 3%Q;
     p_isPublished := None; p_others := ∅ |}.

Definition caramel_tea : IProduct :=
  product_named 2 {[ js "en" := js "Caramel Macchiato" ]}
    (Some (js "caramel-macchiato-2")) "tea".

(** The collection as its unique indexes want it: no two products with
    the same [_id], no two with the same slug. *)
Definition keys_unique (db : Collection) : Prop :=
  NoDup (_id <$> db) ∧ NoDup (slug <$> db).

(** [q] written over the product that has its [_id]. *)
Definition replaced (q : IProduct) (db : Collection) : Collection :=
  (λ p, if _id p =? _id q then q else p) <$> db.

(** The document [update] hands to [save]: the stored product with the
    payload assigned and the slug set from the body or from a new name. *)
Definition update_document `{Builtins} `{Config} (p : IProduct) (data : Payload) : Document :=
  match hasSlugInBody data with
  | Some s => set_slug (Some (ProductRepo.slugify s)) (assign (loaded p) data)
  | None =>
      if truthy_str (nameBase (paths (assign (loaded p) data)))
         && negb (bool_decide (nameBase (paths (assign (loaded p) data)) = nameBase p))
      then set_slug (Some (ProductRepo.slugify (nameBase (paths (assign (loaded p) data)))))
             (assign (loaded p) data)
      else assign (loaded p) data
  end.

Definition caramel_repriced : IProduct :=
  {| _id := 1; name_i18n := Some {[ js "en" := js "Caramel Macchiato" ]};
     slug := Some (js "caramel-macchiato"); category := Some (js "tea");
     price := Some 4.5%Q; isPublished := false;
     others := {[ js "tags" := VArr [VStr (js "sweet")] ]} |}.

Definition reslug_payload : Payload :=
  {| p_name_i18n := None; p_slug := Some (Some (js " House Blend ")); p_category := None;
     p_price := None; p_isPublished := None; p_others := ∅ |}.

Definition house_blend : IProduct :=
  product_named 1 {[ js "en" := js "Caramel Macchiato" ]} (Some (js "house-blend")) "coffee".

Definition rename_payload : Payload :=
  {| p_name_i18n := Some {[ js "en" := js "Flat White" ]}; p_slug := None;
     p_category := None; p_price := None; p_isPublished := None; p_others := ∅ |}.

Definition flat_white : IProduct :=
  product_named 1 {[ js "en" := js "Flat White" ]} (Some (js "flat-white")) "coffee".

Definition vary_accept_language : gmap jsstring jsstring :=
  {[ js "Vary" := js "Accept-Language" ]}.

(** A response that is either a 200 with the [Vary] header or another
    status with no header at all. *)
Definition vary_iff_ok (r : Response) : Prop :=
  (status r = 200 ∧ sent_headers r = vary_accept_language)
  ∨ (status r ≠ 200 ∧ sent_headers r = ∅).

(** The body [createProduct] validates: the parsed text when the request
    body is a string. *)
Definition parsed_body (JSON_parse : jsstring → awaited jsval) (req : Request)
    : awaited jsval :=
  match body req with
  | VStr s => JSON_parse s
  | b => Resolved b
  end.

Definition bare_request : Request :=
  {| body := VUndefined; query := VObj ∅;
     headers := {[ js "accept-language" := VStr (js "  ") ]}; params := ∅ |}.

Definition vi_query_request : Request :=
  {| body := VUndefined; query := VObj {[ js "locale" := VStr (js "vi") ]};
     headers := {[ js "accept-language" := VStr (js "en-US,en;q=0.9") ]}; params := ∅ |}.

(** [pieces.join(",")] *)
Fixpoint join_comma (pieces : list jsstring) : jsstring :=
  match pieces with
  | [] => []
  | [piece] => piece
  | piece :: rest => piece ++ App.comma :: join_comma rest
  end.

Definition blank_origins : jsstring := [32; 44; 32; 44].

(** What the variable evaluates to is above the longest delay a timer
    takes. *)
Definition above_timeout_max (n : BlogScheduler.number) : Prop :=
  match n with
  | BlogScheduler.Finite q => (BlogScheduler.TIMEOUT_MAX < q)%Q
  | BlogScheduler.PosInfinity => True
  | BlogScheduler.NaN | BlogScheduler.NegInfinity => False
  end.

(** The body [updateProduct] validates: the parsed text when the request
    body is a string that parses, the body itself otherwise. *)
Definition lenient_body (JSON_parse : jsstring → awaited jsval) (req : Request) : jsval :=
  match body req with
  | VStr s => match JSON_parse s with Resolved b => b | Rejected _ _ => VStr s end
  | b => b
  end.

Definition caramel_again : Payload :=
  {| p_name_i18n := Some {[ js "en" := js "Caramel Macchiato" ]};
     p_slug := None; p_category := None; p_price := Some 3%Q;
     p_isPublished := None; p_others := ∅ |}.

Definition long_slug : jsstring := replicate 160 97.

Definition long_stored : IProduct :=
  product_named 1 {[ js "en" := js "Long" ]} (Some long_slug) "coffee".

Definition long_payload : Payload :=
  {| p_name_i18n := Some {[ js "en" := js "Longer" ]}; p_slug := Some (Some long_slug);
     p_category := None; p_price := Some 3%Q; p_isPublished := None; p_others := ∅ |}.

Definition long_created : IProduct :=
  product_named 2 {[ js "en" := js "Longer" ]} (Some (suffixed long_slug 2)) "coffee".



(** * Properties *)

(** ** Character classes *)

Ltac char_solve :=
  unfold is_alnum, is_hyphen, is_combining, is_space, is_ascii, lower_ascii,
    between, hyphen in *;
  repeat match goal with
         | |- context [if ?b then _ else _] => destruct b eqn:?
         end;
  repeat progress
    rewrite ?andb_true_iff, ?orb_true_iff, ?negb_true_iff, ?andb_false_iff,
      ?orb_false_iff, ?negb_false_iff, ?N.leb_le, ?N.eqb_eq, ?N.ltb_lt, ?N.leb_gt,
      ?N.eqb_neq, ?N.ltb_ge in *;
  lia.

Lemma slug_char_ascii c : slug_char c = true → is_ascii c = true.
Proof. unfold slug_char. char_solve. Qed.

Lemma slug_char_not_combining c : slug_char c = true → is_combining c = false.
Proof. unfold slug_char. char_solve. Qed.

Lemma slug_char_not_space c : slug_char c = true → is_space c = false.
Proof. unfold slug_char. char_solve. Qed.

Lemma slug_char_lower c : slug_char c = true → lower_ascii c = c.
Proof. unfold slug_char. char_solve. Qed.

Lemma alnum_not_hyphen c : is_alnum c = true → c ≠ hyphen.
Proof. char_solve. Qed.

Lemma is_hyphen_eq c : is_hyphen c = true ↔ c = hyphen.
Proof. unfold is_hyphen. apply N.eqb_eq. Qed.

Lemma slug_char_cases c : slug_char c = true → is_alnum c = true ∨ c = hyphen.
Proof.
  unfold slug_char. rewrite orb_true_iff, is_hyphen_eq. tauto.
Qed.

(** ** The scans of [ProductModel.slugify] *)

Lemma single_hyphens_cons a s :
  (a = hyphen → head s ≠ Some hyphen) → single_hyphens s → single_hyphens (a :: s).
Proof.
  destruct s as [|b r]; simpl; [tauto|].
  intros Hh Hs. split; [|exact Hs].
  intros [-> ->]. by apply Hh.
Qed.

Lemma single_hyphens_tail a s : single_hyphens (a :: s) → single_hyphens s.
Proof. destruct s; simpl; tauto. Qed.

Lemma single_hyphens_head a s :
  single_hyphens (a :: s) → a = hyphen → head s ≠ Some hyphen.
Proof.
  destruct s as [|b r]; simpl; [done|].
  intros [Hn _] -> [= ->]. by apply Hn.
Qed.

Lemma collapse_runs_shape in_run s :
  Forall (λ c, slug_char c = true) (collapse_runs in_run s)
  ∧ single_hyphens (collapse_runs in_run s)
  ∧ (in_run = true → head (collapse_runs in_run s) ≠ Some hyphen).
Proof.
  revert in_run. induction s as [|c r IH]; intros in_run; simpl.
  - by repeat split.
  - destruct (is_alnum c) eqn:Hc.
    + destruct (IH false) as (IHc & IHs & _). repeat split.
      * constructor; [|exact IHc]. unfold slug_char. by rewrite Hc.
      * apply single_hyphens_cons; [|exact IHs].
        intros ->. by apply alnum_not_hyphen in Hc.
      * intros _ [= ->]. by apply alnum_not_hyphen in Hc.
    + destruct (IH true) as (IHc & IHs & IHh). destruct in_run.
      * by repeat split; auto.
      * repeat split; [|by apply single_hyphens_cons; auto|done].
        by constructor.
Qed.

Lemma drop_leading_hyphen_shape s :
  Forall (λ c, slug_char c = true) s → single_hyphens s →
  Forall (λ c, slug_char c = true) (drop_leading_hyphen s)
  ∧ single_hyphens (drop_leading_hyphen s)
  ∧ head (drop_leading_hyphen s) ≠ Some hyphen.
Proof.
  destruct s as [|c r]; simpl; [done|].
  intros Hc Hs. destruct (is_hyphen c) eqn:E.
  - apply is_hyphen_eq in E. repeat split.
    + by inversion Hc.
    + by eapply single_hyphens_tail.
    + by eapply single_hyphens_head.
  - repeat split; [done..|]. intros [= ->]. done.
Qed.

Lemma drop_trailing_hyphen_nil s :
  drop_trailing_hyphen s = [] → s = [] ∨ s = [hyphen].
Proof.
  destruct s as [|a [|b r]]; simpl; [by left| |done].
  destruct (is_hyphen a) eqn:E; [|done].
  apply is_hyphen_eq in E. subst. by right.
Qed.

Lemma drop_trailing_hyphen_scan s :
  Forall (λ c, slug_char c = true) s → single_hyphens s →
  Forall (λ c, slug_char c = true) (drop_trailing_hyphen s)
  ∧ single_hyphens (drop_trailing_hyphen s)
  ∧ last (drop_trailing_hyphen s) ≠ Some hyphen
  ∧ (drop_trailing_hyphen s = [] ∨ head (drop_trailing_hyphen s) = head s).
Proof.
  induction s as [|a r IH]; [by repeat split; auto|].
  intros Hc Hs. destruct r as [|b r'].
  - simpl. destruct (is_hyphen a) eqn:E; [by repeat split; auto|].
    repeat split; simpl; auto.
    intros [= ->]. done.
  - change (drop_trailing_hyphen (a :: b :: r'))
      with (a :: drop_trailing_hyphen (b :: r')).
    inversion Hc as [|?? Hca Hcr]; subst.
    destruct (IH Hcr (single_hyphens_tail _ _ Hs)) as (IHc & IHs & IHl & IHh).
    repeat split; auto.
    + apply single_hyphens_cons; [|done].
      intros ->. destruct IHh as [-> | ->]; [done|].
      by apply (single_hyphens_head hyphen).
    + destruct (drop_trailing_hyphen (b :: r')) as [|x t] eqn:Ed; [|done].
      apply drop_trailing_hyphen_nil in Ed as [?| [= -> ->]]; [done|].
      simpl. intros [= ->]. destruct Hs as [Hn _]. by apply Hn.
Qed.

Lemma strip_edge_hyphens_shape s :
  Forall (λ c, slug_char c = true) s → single_hyphens s →
  slug_shaped (strip_edge_hyphens s).
Proof.
  intros Hc Hs. unfold strip_edge_hyphens.
  destruct (drop_leading_hyphen_shape s Hc Hs) as (Hc' & Hs' & Hh').
  destruct (drop_trailing_hyphen_scan _ Hc' Hs') as (Hc2 & Hs2 & Hl2 & Hh2).
  split; [done..| |done].
  destruct Hh2 as [-> | ->]; done.
Qed.

(** ** [ProductModel.slugify]: shape of the result and idempotence *)

Section Slugify.
Context `{BuiltinsSpec}.

Lemma slugify_shaped text : slug_shaped (ProductModel.slugify text).
Proof.
  unfold ProductModel.slugify.
  destruct (collapse_runs_shape false
              (trim (toLowerCase (strip_marks (nfkd text))))) as (Hc & Hs & _).
  by apply strip_edge_hyphens_shape.
Qed.

Lemma Forall_forallb (f : N → bool) s : Forall (λ c, f c = true) s → forallb f s = true.
Proof. intros Hf. apply forallb_forall. intros c Hin. rewrite Forall_forall in Hf. apply Hf. by apply list_elem_of_In. Qed.

Lemma strip_marks_id s : Forall (λ c, slug_char c = true) s → strip_marks s = s.
Proof.
  induction 1 as [|c r Hc _ IH]; [done|]. unfold strip_marks in *. simpl.
  by rewrite (slug_char_not_combining c Hc), IH.
Qed.

Lemma lower_ascii_id s : Forall (λ c, slug_char c = true) s → lower_ascii <$> s = s.
Proof.
  induction 1 as [|c r Hc _ IH]; [done|]. csimpl.
  by rewrite (slug_char_lower c Hc), IH.
Qed.

Lemma trimStart_id s : Forall (λ c, slug_char c = true) s → trimStart s = s.
Proof.
  destruct 1 as [|c r Hc _]; [done|]. simpl.
  by rewrite (slug_char_not_space c Hc).
Qed.

Lemma trim_id s : Forall (λ c, slug_char c = true) s → trim s = s.
Proof.
  intros Hs. unfold trim, trimEnd. rewrite (trimStart_id s Hs).
  rewrite trimStart_id; [apply reverse_involutive|].
  by apply Forall_reverse.
Qed.

Lemma collapse_runs_id in_run s :
  Forall (λ c, slug_char c = true) s → single_hyphens s →
  (in_run = true → head s ≠ Some hyphen) →
  collapse_runs in_run s = s.
Proof.
  intros Hc. revert in_run. induction Hc as [|c r Hc _ IH]; intros in_run Hs Hh; [done|].
  simpl. destruct (slug_char_cases c Hc) as [Ha | ->].
  - rewrite Ha. f_equal. apply IH; [by eapply single_hyphens_tail|done].
  - replace (is_alnum hyphen) with false by done. destruct in_run.
    + by exfalso; apply Hh.
    + f_equal. apply IH; [by eapply single_hyphens_tail|].
      intros _. by eapply single_hyphens_head.
Qed.

Lemma drop_trailing_hyphen_id s : last s ≠ Some hyphen → drop_trailing_hyphen s = s.
Proof.
  induction s as [|a [|b r] IH]; [done| |].
  - simpl. intros Hl. destruct (is_hyphen a) eqn:E; [|done].
    apply is_hyphen_eq in E. by subst.
  - intros Hl. change (drop_trailing_hyphen (a :: b :: r))
      with (a :: drop_trailing_hyphen (b :: r)).
    f_equal. by apply IH.
Qed.

Lemma strip_edge_hyphens_id s :
  head s ≠ Some hyphen → last s ≠ Some hyphen → strip_edge_hyphens s = s.
Proof.
  intros Hh Hl. unfold strip_edge_hyphens.
  assert (drop_leading_hyphen s = s) as ->; [|by apply drop_trailing_hyphen_id].
  destruct s as [|c r]; [done|]. simpl.
  destruct (is_hyphen c) eqn:E; [|done].
  apply is_hyphen_eq in E. by subst.
Qed.

Lemma slugify_fixes_shaped s : slug_shaped s → ProductModel.slugify s = s.
Proof.
  intros [Hc Hs Hh Hl]. unfold ProductModel.slugify.
  assert (Ha : forallb is_ascii s = true).
  { apply Forall_forallb. eapply Forall_impl; [exact Hc|]. apply slug_char_ascii. }
  rewrite (nfkd_ascii s Ha), (strip_marks_id s Hc), (toLowerCase_ascii s Ha).
  rewrite (lower_ascii_id s Hc), (trim_id s Hc), collapse_runs_id; [|done..].
  by apply strip_edge_hyphens_id.
Qed.

End Slugify.

(** ** Decimal rendering *)

Lemma js_inj s t : js s = js t → s = t.
Proof.
  unfold js. intros Heq.
  rewrite <- (string_of_list_ascii_of_string s), <- (string_of_list_ascii_of_string t).
  f_equal. revert Heq.
  generalize (list_ascii_of_string s) (list_ascii_of_string t).
  induction l as [|a l IH]; intros [|b l']; csimpl; try done.
  intros [= Hab Hl]. f_equal; [|by apply IH].
  by rewrite <- (ascii_N_embedding a), <- (ascii_N_embedding b), Hab.
Qed.

Lemma decimal_inj m n : decimal m = decimal n → m = n.
Proof.
  unfold decimal. intros Heq%js_inj.
  apply DecimalN.Unsigned.to_uint_inj.
  assert (Hs : Some (N.to_uint m) = Some (N.to_uint n)); [|by injection Hs].
  by rewrite <- !NilEmpty.usu, Heq.
Qed.

Lemma suffixed_inj base m n : suffixed base m = suffixed base n → m = n.
Proof.
  unfold suffixed. intros Heq%app_inv_head. injection Heq. apply decimal_inj.
Qed.

Lemma suffixed_not_base base n : suffixed base n ≠ base.
Proof.
  unfold suffixed. intros Heq. apply (f_equal length) in Heq.
  rewrite length_app in Heq. simpl in Heq. lia.
Qed.

Lemma digits_alnum (d : Decimal.uint) :
  Forall (λ c, is_alnum c = true) (js (NilEmpty.string_of_uint d)).
Proof. induction d; simpl; by constructor. Qed.

Lemma decimal_alnum n : Forall (λ c, is_alnum c = true) (decimal n).
Proof. apply digits_alnum. Qed.

Lemma decimal_nonempty n : decimal n ≠ [].
Proof.
  unfold decimal. intros Heq. change [] with (js "") in Heq. apply js_inj in Heq.
  pose proof (NilEmpty.usu (N.to_uint n)) as Hu. rewrite Heq in Hu. simpl in Hu.
  injection Hu as Hu. pose proof (DecimalN.Unsigned.of_to n) as Hn.
  rewrite <- Hu in Hn. 
  destruct n; [by rewrite <- Hu in *|]. simpl in *.
  unfold N.to_uint in Hu. 
  pose proof (DecimalPos.Unsigned.of_to p) as Hp. rewrite <- Hu in Hp. done.
Qed.

(** ** The loop of [ensureUniqueSlug] *)

Section Probe.
Variable taken : jsstring → bool.
Variable base : jsstring.

Lemma probe_free fuel candidate i c :
  probe fuel taken base candidate i = Some c → taken c = false.
Proof.
  revert candidate i. induction fuel as [|fuel IH]; intros candidate i; simpl; [done|].
  destruct (taken candidate) eqn:E; [apply IH|]. by intros [= <-].
Qed.

Lemma probe_more_fuel fuel fuel' candidate i c :
  (fuel ≤ fuel')%nat →
  probe fuel taken base candidate i = Some c →
  probe fuel' taken base candidate i = Some c.
Proof.
  revert fuel' candidate i. induction fuel as [|fuel IH]; intros fuel' candidate i Hle; [done|].
  destruct fuel' as [|fuel']; [lia|]. simpl.
  destruct (taken candidate); [|done]. apply IH. lia.
Qed.

(** After [k] suffixes in a row that collide, the loop stops at the next
    one if it is free. *)
Lemma probe_run k candidate i :
  taken candidate = true →
  (∀ j, i ≤ j < i + N.of_nat k → taken (suffixed base j) = true) →
  taken (suffixed base (i + N.of_nat k)) = false →
  probe (k + 2) taken base candidate i = Some (suffixed base (i + N.of_nat k)).
Proof.
  revert candidate i. induction k as [|k IH]; intros candidate i Hc Hrun Hfree.
  - simpl in *. rewrite N.add_0_r in *. by rewrite Hc, Hfree.
  - change (S k + 2)%nat with (S (k + 2)). simpl probe. rewrite Hc.
    replace (i + N.of_nat (S k)) with (i + 1 + N.of_nat k) in * by lia.
    apply IH; [apply Hrun; lia| |done].
    intros j Hj. apply Hrun. lia.
Qed.

(** A loop that is out of fuel has seen [fuel] collisions. *)
Lemma probe_exhausted fuel candidate i :
  probe (S fuel) taken base candidate i = None →
  taken candidate = true
  ∧ ∀ j, i ≤ j < i + N.of_nat fuel → taken (suffixed base j) = true.
Proof.
  revert candidate i. induction fuel as [|fuel IH]; intros candidate i.
  - simpl. destruct (taken candidate); [|done]. intros _. split; [done|]. lia.
  - change (probe (S (S fuel)) taken base candidate i)
      with (if taken candidate then probe (S fuel) taken base (suffixed base i) (i + 1)
            else Some candidate).
    destruct (taken candidate); [|done].
    intros [Hi Hrest]%IH. split; [done|].
    intros j Hj. destruct (decide (j = i)) as [->|Hne]; [done|].
    apply Hrest. lia.
Qed.

End Probe.

(** The candidates the loop tries are pairwise different, so a finite
    collection cannot hold them all. *)
Lemma candidates_NoDup base candidate n :
  (∀ j, suffixed base j ≠ candidate) →
  NoDup (candidate :: (suffixed base <$> (N.of_nat <$> seq 2 n))).
Proof.
  intros Hc. constructor.
  - intros (j & Heq & _)%list_elem_of_fmap. by apply (Hc j).
  - apply NoDup_fmap_2; [intros ??; apply suffixed_inj|].
    apply NoDup_fmap_2; [intros ??; apply Nat2N.inj|]. apply NoDup_seq.
Qed.

Lemma first_candidate_fresh base j : suffixed base j ≠ or_product (Some base).
Proof.
  unfold or_product. destruct base as [|c r]; simpl; [done|].
  apply (suffixed_not_base (c :: r)).
Qed.

Lemma slug_exists_elem db id c :
  slug_exists db id c = true → Some c ∈ slug <$> db.
Proof.
  unfold slug_exists. intros (p & Hin & Hp)%existsb_exists.
  apply andb_true_iff in Hp as [Hs%bool_decide_eq_true _].
  rewrite <- Hs. apply list_elem_of_fmap_2. by apply list_elem_of_In.
Qed.

Section UniqueSlug.
Context `{Builtins} `{Config}.

Lemma unique_candidate_total db p : is_Some (unique_candidate db p).
Proof.
  unfold unique_candidate.
  set (base := ProductModel.slugify (baseInput p)). set (taken := slug_exists db (_id p)).
  destruct (probe (S (length db)) taken base (or_product (Some base)) 2) as [c|] eqn:E;
    [by eexists|].
  exfalso. apply probe_exhausted in E as [Hfirst Hrest].
  assert (Hsub : (Some <$> or_product (Some base)
                    :: (suffixed base <$> (N.of_nat <$> seq 2 (length db))))
                 ⊆+ slug <$> db).
  { apply NoDup_submseteq.
    - apply NoDup_fmap_2; [apply _|].
      apply candidates_NoDup. intros j. apply first_candidate_fresh.
    - intros ? (c & -> & Hc)%list_elem_of_fmap.
      apply (slug_exists_elem db (_id p)).
      apply elem_of_cons in Hc as [->|Hc]; [done|].
      apply list_elem_of_fmap in Hc as (j & -> & Hj).
      apply list_elem_of_fmap in Hj as (k & -> & Hk%elem_of_seq).
      apply Hrest. lia. }
  apply submseteq_length in Hsub.
  rewrite !length_fmap in Hsub. simpl in Hsub.
  rewrite !length_fmap, length_seq in Hsub. lia.
Qed.

End UniqueSlug.

Lemma ascii_builtins_spec : @BuiltinsSpec ascii_builtins.
Proof. by split. Qed.

Section Candidates.
Context `{BuiltinsSpec} `{Config}.

Lemma slug_setter_id c : Forall (λ x, slug_char x = true) c → slug_setter c = c.
Proof.
  intros Hc. unfold slug_setter.
  rewrite toLowerCase_ascii, (lower_ascii_id c Hc); [by apply trim_id|].
  apply Forall_forallb. eapply Forall_impl; [exact Hc|]. apply slug_char_ascii.
Qed.

Lemma suffixed_chars base j :
  Forall (λ x, slug_char x = true) base →
  Forall (λ x, slug_char x = true) (suffixed base j).
Proof.
  intros Hb. unfold suffixed. apply Forall_app. split; [done|].
  constructor; [done|].
  eapply Forall_impl; [apply decimal_alnum|].
  intros x Hx. unfold slug_char. by rewrite Hx.
Qed.

Lemma probe_chars fuel taken base candidate i c :
  Forall (λ x, slug_char x = true) base →
  Forall (λ x, slug_char x = true) candidate →
  probe fuel taken base candidate i = Some c →
  Forall (λ x, slug_char x = true) c.
Proof.
  intros Hb. revert candidate i.
  induction fuel as [|fuel IH]; intros candidate i Hc; simpl; [done|].
  destruct (taken candidate); [|by intros [= <-]].
  apply IH. by apply suffixed_chars.
Qed.

Lemma or_product_chars base :
  Forall (λ x, slug_char x = true) base →
  Forall (λ x, slug_char x = true) (or_product (Some base)).
Proof.
  intros Hb. unfold or_product. destruct (truthy_str base); [done|].
  by apply Forall_forall; intros x Hx; repeat (apply elem_of_cons in Hx as [->|Hx]; [done|]);
    apply elem_of_nil in Hx.
Qed.

Lemma unique_candidate_chars db p c :
  unique_candidate db p = Some c → Forall (λ x, slug_char x = true) c.
Proof.
  unfold unique_candidate.
  pose proof (shaped_chars _ (slugify_shaped (baseInput p))) as Hb.
  apply probe_chars; [done|]. by apply or_product_chars.
Qed.

Lemma set_slug_slug v doc : slug (paths (set_slug v doc)) = slug_setter <$> v.
Proof. unfold set_slug. by case_decide. Qed.

Lemma unique_candidate_run db p (n : N) :
  let base := ProductModel.slugify (baseInput p) in
  let taken := slug_exists db (_id p) in
  taken (or_product (Some base)) = true →
  (∀ j, 2 ≤ j ≤ n + 1 → taken (suffixed base j) = true) →
  taken (suffixed base (n + 2)) = false →
  unique_candidate db p = Some (suffixed base (n + 2)).
Proof.
  intros base taken Hfirst Hrun Hfree.
  destruct (unique_candidate_total db p) as [c Hc]. rewrite Hc. f_equal.
  unfold unique_candidate in Hc. fold base taken in Hc.
  pose proof (probe_run taken base (N.to_nat n) (or_product (Some base)) 2) as Hp.
  rewrite N2Nat.id in Hp. replace (2 + n) with (n + 2) in Hp by lia.
  specialize (Hp Hfirst).
  eapply (probe_more_fuel _ _ _ (S (length db) + (N.to_nat n + 2))) in Hc; [|lia].
  eapply (probe_more_fuel _ _ _ (S (length db) + (N.to_nat n + 2))) in Hp;
    [congruence|lia|intros j Hj; apply Hrun; lia|done].
Qed.

End Candidates.

(** C1. [ensureUniqueSlug] always ends, and the candidate it assigns to
    [doc.slug] is one the existence query reports free.  The first
    candidate is [ProductModel.slugify(baseInput)] (the fallback token when that is
    empty) and is returned when free; when it and the suffixes
    [-2 .. -(n+1)] collide and [-(n+2)] is free, the result is
    [base-(n+2)]. *)
Theorem ensureUniqueSlug_first_free `{BuiltinsSpec} `{Config}
    (db : Collection) (doc : Document) :
  let p := paths doc in
  let base := ProductModel.slugify (baseInput p) in
  let taken := slug_exists db (_id p) in
  (∃ c doc', unique_candidate db p = Some c ∧ taken c = false
             ∧ ensureUniqueSlug db doc = Some doc' ∧ slug (paths doc') = Some c)
  ∧ (base ≠ [] → or_product (Some base) = base)
  ∧ (taken (or_product (Some base)) = false →
     unique_candidate db p = Some (or_product (Some base)))
  ∧ (∀ n : N,
       taken (or_product (Some base)) = true →
       (∀ j, 2 ≤ j ≤ n + 1 → taken (suffixed base j) = true) →
       taken (suffixed base (n + 2)) = false →
       unique_candidate db p = Some (suffixed base (n + 2))).
Proof.
  intros p base taken. repeat split.
  - destruct (unique_candidate_total db p) as [c Hc].
    exists c, (set_slug (Some c) doc). repeat split; [done| | |].
    + unfold unique_candidate in Hc. by eapply probe_free.
    + unfold ensureUniqueSlug. fold p. by rewrite Hc.
    + rewrite set_slug_slug. simpl. f_equal. apply slug_setter_id.
      by eapply unique_candidate_chars.
  - by destruct base.
  - intros Hfree. unfold unique_candidate. fold p base taken.
    change (probe (S ?n) ?t ?b ?c ?i) with (if t c then probe n t b (suffixed b i) (i + 1) else Some c).
    by rewrite Hfree.
  - apply unique_candidate_run.
Qed.

(** ** Sample data *)

Lemma ensureUniqueSlug_first_free_witness :
  unique_candidate (H:=ascii_builtins) (H0:=vi_default) [caramel_stored] (paths caramel_new)
  = Some (js "caramel-macchiato-2").
Proof.
  destruct (@ensureUniqueSlug_first_free ascii_builtins ascii_builtins_spec vi_default
              [caramel_stored] caramel_new) as (_ & _ & _ & Hrun).
  apply (Hrun 0); [reflexivity| |reflexivity].
  intros j Hj. lia.
Defined.

Lemma repo_slugify_same `{Builtins} x : ProductRepo.slugify x = ProductModel.slugify x.
Proof. unfold ProductRepo.slugify. by destruct x. Qed.

(** C5. [ProductModel.slugify] is idempotent, and its result (it has one for every
    text) holds [[a-z0-9]] and hyphens only, with no two hyphens in a row
    and none at either end; the repository's copy is the same function. *)
Theorem slugify_idempotent `{BuiltinsSpec} (x : jsstring) :
  ProductModel.slugify (ProductModel.slugify x) = ProductModel.slugify x
  ∧ slug_shaped (ProductModel.slugify x)
  ∧ ProductRepo.slugify x = ProductModel.slugify x.
Proof.
  split; [|split].
  - apply slugify_fixes_shaped, slugify_shaped.
  - apply slugify_shaped.
  - apply repo_slugify_same.
Qed.

Lemma slugify_idempotent_witness :
  ProductModel.slugify (H:=ascii_builtins) (js " Caramel  Macchiato! ") = js "caramel-macchiato"
  ∧ ProductModel.slugify (H:=ascii_builtins) (ProductModel.slugify (H:=ascii_builtins) (js " Caramel  Macchiato! "))
    = ProductModel.slugify (H:=ascii_builtins) (js " Caramel  Macchiato! ").
Proof.
  split; [reflexivity|].
  pose proof (@slugify_idempotent ascii_builtins ascii_builtins_spec
                (js " Caramel  Macchiato! ")) as [Hi _].
  exact Hi.
Defined.

(** ** [ensureUniqueName] *)

Lemma truthy_str_nonempty s : truthy_str s = true ↔ s ≠ [].
Proof. by destruct s. Qed.

Lemma name_key_Some name loc v :
  name_key name loc = Some v ↔ name !! loc = Some v ∧ v ≠ [].
Proof.
  unfold name_key. destruct (name !! loc) as [w|]; [|by split; [|intros [? _]]].
  destruct (truthy_str w) eqn:E.
  - apply truthy_str_nonempty in E. split.
    + by intros [= <-].
    + by intros [[= <-] _].
  - split; [done|]. intros [[= ->] Hv]. apply truthy_str_nonempty in Hv. congruence.
Qed.

Section UniqueName.
Context `{Config}.

Lemma ensureUniqueName_cases db category name excludeId :
  ensureUniqueName db category name excludeId = None
  ∨ ensureUniqueName db category name excludeId = Some PRODUCT_NAME_DUPLICATE.
Proof.
  unfold ensureUniqueName.
  repeat match goal with
         | |- context [match ?x with _ => _ end] => destruct x
         end; auto.
Qed.

Lemma matches_true category or excludeId q :
  matches category or excludeId q = true ↔
  ProductModel.category q = Some category
  ∧ (∃ loc v, (loc, v) ∈ or ∧ name_at q loc = Some v)
  ∧ excludeId ≠ Some (_id q).
Proof.
  unfold matches. rewrite !andb_true_iff, bool_decide_eq_true, existsb_exists.
  assert (Hor : (∃ x : jsstring * jsstring,
                   In x or ∧ (let '(loc, v) := x in bool_decide (name_at q loc = Some v)) = true)
                ↔ ∃ loc v, (loc, v) ∈ or ∧ name_at q loc = Some v).
  { split.
    - intros ([loc v] & Hin%list_elem_of_In & Hb%bool_decide_eq_true). eauto.
    - intros (loc & v & Hin%list_elem_of_In & Hb). exists (loc, v).
      by rewrite bool_decide_eq_true. }
  assert (Hex : match excludeId with
                | Some id => negb (_id q =? id)
                | None => true
                end = true ↔ excludeId ≠ Some (_id q)).
  { destruct excludeId as [id|]; [|done].
    rewrite negb_true_iff, N.eqb_neq. split; [by intros ? [= ->]|congruence]. }
  rewrite Hor, Hex. tauto.
Qed.
End UniqueName.

Section UniqueNameSpec.
Context `{Config}.

Lemma elem_of_or_filter name loc v :
  (loc, v) ∈ or_filter name ↔
  (loc = js "vi" ∨ loc = js "en") ∧ name !! loc = Some v ∧ v ≠ [].
Proof.
  unfold or_filter. rewrite elem_of_app. split.
  - intros [Hin | Hin].
    + destruct (name_key name (js "vi")) as [w|] eqn:E; [|by apply elem_of_nil in Hin].
      apply list_elem_of_singleton in Hin as [= -> ->].
      apply name_key_Some in E as [Hv Hne]. by repeat split; auto.
    + destruct (name_key name (js "en")) as [w|] eqn:E; [|by apply elem_of_nil in Hin].
      apply list_elem_of_singleton in Hin as [= -> ->].
      apply name_key_Some in E as [Hv Hne]. by repeat split; auto.
  - intros ([-> | ->] & Hv & Hne).
    + left. assert (name_key name (js "vi") = Some v) as -> by by apply name_key_Some.
      by apply list_elem_of_singleton.
    + right. assert (name_key name (js "en") = Some v) as -> by by apply name_key_Some.
      by apply list_elem_of_singleton.
Qed.

Lemma ensureUniqueName_unfold db category name excludeId :
  ensureUniqueName db (Some category) (Some name) excludeId =
  if truthy_str category && existsb (matches category (or_filter name) excludeId) db
  then Some PRODUCT_NAME_DUPLICATE else None.
Proof.
  unfold ensureUniqueName.
  destruct (truthy_str category); [|done]. simpl.
  destruct (or_filter name) as [|x l] eqn:E; [|done].
  assert (existsb (matches category [] excludeId) db = false) as ->; [|done].
  apply not_true_iff_false. intros (q & _ & Hq)%existsb_exists.
  apply matches_true in Hq as (_ & (loc & v & Hin & _) & _). by apply elem_of_nil in Hin.
Qed.

Lemma ensureUniqueName_duplicate db category name excludeId :
  ensureUniqueName db (Some category) (Some name) excludeId = Some PRODUCT_NAME_DUPLICATE
  ↔ category ≠ [] ∧ vi_en_conflict db category name excludeId.
Proof.
  rewrite ensureUniqueName_unfold.
  destruct (truthy_str category) eqn:Ec; simpl.
  - apply truthy_str_nonempty in Ec.
    destruct (existsb _ db) eqn:Ex.
    + split; [intros _|done]. split; [done|].
      apply existsb_exists in Ex as (q & Hin%list_elem_of_In & Hq).
      apply matches_true in Hq as (Hcat & (loc & v & Hor & Hat) & Hex).
      apply elem_of_or_filter in Hor as (Hloc & Hv & Hne).
      by exists q, loc, v.
    + split; [done|]. intros (_ & q & loc & v & Hin & Hcat & Hex & Hloc & Hv & Hne & Hat).
      exfalso. apply not_true_iff_false in Ex. apply Ex.
      apply existsb_exists. exists q. split; [by apply list_elem_of_In|].
      apply matches_true. repeat split; [done| |done].
      exists loc, v. split; [|done]. by apply elem_of_or_filter.
  - split; [done|]. intros [Hne _]. by apply truthy_str_nonempty in Hne; congruence.
Qed.

End UniqueNameSpec.

(** ** [create] *)

Section Create.
Context `{Builtins} `{Config}.
Variable others_valid : gmap jsstring jsval → bool.

(** [doc.save()] never ends with the duplicate-name error: that one comes
    from [ensureUniqueName] alone. *)
Lemma save_not_duplicate db doc db' :
  save others_valid db doc ≠ Some (Throws PRODUCT_NAME_DUPLICATE db').
Proof.
  unfold save. destruct (valid _ _); [|done].
  by destruct (preSave db (preValidate doc)).
Qed.

Lemma new_category_nonempty data : new_category data ≠ [].
Proof.
  unfold new_category. destruct (p_category data) as [c|]; [|done].
  destruct (truthy_str c) eqn:E; [|done]. by apply truthy_str_nonempty.
Qed.

Lemma create_duplicate db new_id data db' :
  create others_valid db new_id data = Some (Throws PRODUCT_NAME_DUPLICATE db')
  ↔ db' = db
    ∧ ∃ name, p_name_i18n data = Some name
              ∧ vi_en_conflict db (new_category data) name None.
Proof.
  unfold create.
  destruct (p_name_i18n data) as [name|] eqn:En.
  - destruct (ensureUniqueName_cases db (Some (new_category data)) (Some name) None)
      as [Hn | Hd]; rewrite ?Hn, ?Hd.
    + split; [by intros ?%save_not_duplicate|].
      intros (_ & name' & [= <-] & Hc). exfalso.
      assert (Hdup : ensureUniqueName db (Some (new_category data)) (Some name) None
                     = Some PRODUCT_NAME_DUPLICATE).
      { apply ensureUniqueName_duplicate. split; [apply new_category_nonempty|done]. }
      congruence.
    + apply ensureUniqueName_duplicate in Hd as [_ Hc].
      split; [intros [= <-]; eauto|]. by intros [-> _].
  - simpl. split; [by intros ?%save_not_duplicate|]. by intros (_ & ? & ? & _).
Qed.

End Create.

(** C2, as amended.  [create] ends with [PRODUCT_NAME_DUPLICATE] exactly
    when a stored product of the same category ([coffee] when the payload
    names none) has the payload's non-empty [vi] name as its [vi] name or
    the payload's non-empty [en] name as its [en] name; the collection is
    then left as it was.  When no stored product has that category the
    write goes on to [save] whatever the names are, and
    [ensureUniqueName] does nothing without a category or without a
    name. *)
Theorem create_rejects_vi_en_duplicates `{Builtins} `{Config}
    (others_valid : gmap jsstring jsval → bool)
    (db : Collection) (new_id : ObjectId) (data : Payload) :
  (∀ db',
     create others_valid db new_id data = Some (Throws PRODUCT_NAME_DUPLICATE db')
     ↔ db' = db
       ∧ ∃ name, p_name_i18n data = Some name
                 ∧ vi_en_conflict db (new_category data) name None)
  ∧ ((∀ q, q ∈ db → category q ≠ Some (new_category data)) →
     create others_valid db new_id data
     = save others_valid db (construct new_id data (new_category data)))
  ∧ (∀ name excludeId,
       ensureUniqueName db None name excludeId = None
       ∧ ensureUniqueName db (Some []) name excludeId = None)
  ∧ (∀ category excludeId, ensureUniqueName db category None excludeId = None).
Proof.
  split; [intros db'; apply create_duplicate|]. split; [|split].
  - intros Hcat. unfold create.
    destruct (p_name_i18n data) as [name|]; [|done].
    destruct (ensureUniqueName_cases db (Some (new_category data)) (Some name) None)
      as [-> | Hd]; [done|].
    apply ensureUniqueName_duplicate in Hd as (_ & q & ? & ? & Hin & Hq & _).
    by destruct (Hcat q Hin).
  - intros name excludeId. split; [done|]. by destruct name.
  - intros [category|] excludeId; by simpl.
Qed.

(** The stored product and the payload share the category and the name in
    the locale [fr], and the create goes through. *)
Lemma create_ignores_third_locale :
  any_locale_conflict [mocha_stored] (js "coffee") {[ js "en" := js "Latte"; js "fr" := js "Creme" ]} None
  ∧ create (H:=ascii_builtins) (H0:=vi_default) sample_others_valid [mocha_stored] 2 latte_payload
    = Some (Returns latte_created [mocha_stored; latte_created]).
Proof.
  split.
  - exists mocha_stored, (js "fr"), (js "Creme").
    split; [by apply list_elem_of_singleton|].
    split; [reflexivity|]. split; [discriminate|].
    split; vm_compute; reflexivity.
  - vm_compute. reflexivity.
Qed.

Lemma create_rejects_vi_en_duplicates_witness :
  create (H:=ascii_builtins) (H0:=vi_default) sample_others_valid
    [caramel_stored] 2
    {| p_name_i18n := Some {[ js "en" := js "Caramel Macchiato" ]};
       p_slug := None; p_category := None; p_price := Some 3%Q;
       p_isPublished := None; p_others := ∅ |}
  = Some (Throws PRODUCT_NAME_DUPLICATE [caramel_stored]).
Proof.
  apply (@create_rejects_vi_en_duplicates ascii_builtins vi_default).
  split; [reflexivity|].
  exists {[ js "en" := js "Caramel Macchiato" ]}. split; [reflexivity|].
  exists caramel_stored, (js "en"), (js "Caramel Macchiato").
  repeat split; [by apply list_elem_of_singleton|done|by right|done..].
Defined.

(** C10. A name with neither a [vi] nor an [en] entry never makes
    [ensureUniqueName] throw, whatever the category and the collection:
    the filter is built from those two keys and the check returns when it
    is empty.  A create with such a name goes on to [save], and an update
    with it does not end with the duplicate-name error. *)
Theorem ensureUniqueName_ignores_other_locales `{Builtins} `{Config}
    (others_valid : gmap jsstring jsval → bool)
    (db : Collection) (name : LocalizedString) :
  name !! js "vi" = None →
  name !! js "en" = None →
  or_filter name = []
  ∧ (∀ category excludeId, ensureUniqueName db category (Some name) excludeId = None)
  ∧ (∀ new_id data,
       p_name_i18n data = Some name →
       create others_valid db new_id data
       = save others_valid db (construct new_id data (new_category data)))
  ∧ (∀ id data db',
       p_name_i18n data = Some name →
       update others_valid db id data ≠ Some (Throws PRODUCT_NAME_DUPLICATE db')).
Proof.
  intros Hvi Hen.
  assert (Hor : or_filter name = []).
  { unfold or_filter, name_key. by rewrite Hvi, Hen. }
  assert (Hnone : ∀ category excludeId,
             ensureUniqueName db category (Some name) excludeId = None).
  { intros [category|] excludeId; [|done].
    rewrite ensureUniqueName_unfold, Hor.
    destruct (truthy_str category); [|done]. simpl.
    assert (existsb (matches category [] excludeId) db = false) as ->; [|done].
    apply not_true_iff_false. intros (q & _ & Hq)%existsb_exists.
    apply matches_true in Hq as (_ & (loc & v & Hin & _) & _). by apply elem_of_nil in Hin. }
  repeat split; [done..| |].
  - intros new_id data Hname. unfold create. by rewrite Hname, Hnone.
  - intros id data db' Hname. unfold update.
    destruct (findById db id) as [p|]; [|done].
    rewrite Hname. simpl. rewrite Hnone.
    match goal with |- context [save ?o ?d ?x] =>
      pose proof (save_not_duplicate o d x db') as Hs; destruct (save o d x) as [[]|] end;
      congruence.
Qed.

Lemma ensureUniqueName_ignores_other_locales_witness :
  ensureUniqueName
    [product_named 1 creme_only (Some (js "creme")) "coffee"]
    (Some (js "coffee")) (Some creme_only) None = None.
Proof.
  apply (@ensureUniqueName_ignores_other_locales ascii_builtins vi_default
           sample_others_valid _ creme_only); reflexivity.
Defined.

(** ** [update] and the stored slug *)

Section Update.
Context `{BuiltinsSpec} `{Config}.
Variable others_valid : gmap jsstring jsval → bool.

Lemma shaped_setter s : slug_shaped s → slug_setter s = s.
Proof. intros Hs. apply slug_setter_id, Hs. Qed.

Lemma shaped_nonblank s : slug_shaped s → s ≠ [] → nonblank s = true.
Proof.
  intros Hs Hne. unfold nonblank. rewrite trim_id; [|apply Hs]. by destruct s.
Qed.

(** Assigning to [slug] the value it has changes nothing, not even the
    modified flag. *)
Lemma set_slug_same doc s t :
  slug (paths doc) = Some s → slug_setter t = s → set_slug (Some t) doc = doc.
Proof.
  intros Hs Ht. unfold set_slug. simpl. rewrite Ht, Hs. by case_decide.
Qed.

Lemma preValidate_same doc s :
  slug (paths doc) = Some s → slug_shaped s → s ≠ [] → preValidate doc = doc.
Proof.
  intros Hs Hshape Hne. unfold preValidate. rewrite Hs. simpl.
  apply truthy_str_nonempty in Hne as ->.
  apply (set_slug_same doc s); [done|].
  rewrite slugify_fixes_shaped by done. by apply shaped_setter.
Qed.

Lemma findById_id db id p : findById db id = Some p → _id p = id.
Proof.
  unfold findById. induction db as [|q db IH]; simpl; [done|].
  destruct (_id q =? id) eqn:E; [|done]. intros [= <-]. by apply N.eqb_eq.
Qed.

Lemma findById_persist db doc p :
  isNew doc = false → findById db (_id (paths doc)) = Some p →
  findById (persist db doc) (_id (paths doc)) = Some (paths doc).
Proof.
  intros Hnew. unfold persist, findById. rewrite Hnew.
  induction db as [|q db IH]; csimpl; [done|].
  destruct (_id q =? _id (paths doc)) eqn:E; simpl.
  - intros _. by rewrite N.eqb_refl.
  - rewrite E. apply IH.
Qed.

Lemma assign_paths doc data :
  _id (paths (assign doc data)) = _id (paths doc)
  ∧ isNew (assign doc data) = isNew doc.
Proof.
  unfold assign. destruct (p_slug data) as [v|]; [|done].
  unfold set_slug. by case_decide.
Qed.

Lemma assign_same_slug doc data s :
  slug (paths doc) = Some s → slug_shaped s →
  p_slug data = None ∨ p_slug data = Some (Some s) →
  slug (paths (assign doc data)) = Some s
  ∧ slug_modified (assign doc data) = slug_modified doc.
Proof.
  intros Hs Hshape [Hp | Hp]; unfold assign; rewrite Hp; [done|].
  rewrite (set_slug_same _ s s); [done..|]. by apply shaped_setter.
Qed.

End Update.

(** C3. An update whose payload has no [slug] key, or carries the stored
    slug itself, and leaves the name the slug derives from
    ([en || default || vi]) as it was, ends with the stored slug of that
    product unchanged, whether the write goes through or is refused; the
    stored slug is one the hooks produce (slug-shaped and not empty). *)
Theorem update_keeps_slug `{BuiltinsSpec} `{Config}
    (others_valid : gmap jsstring jsval → bool)
    (db : Collection) (id : ObjectId) (data : Payload) (p : IProduct) (s : jsstring) :
  findById db id = Some p →
  slug p = Some s → slug_shaped s → s ≠ [] →
  p_slug data = None ∨ p_slug data = Some (Some s) →
  nameBase (paths (assign (loaded p) data)) = nameBase p →
  ∃ r, update others_valid db id data = Some r
       ∧ slug <$> findById (collection_of r) id = Some (Some s).
Proof.
  intros Hfind Hs Hshape Hne Hpayload Hname.
  unfold update. rewrite Hfind.
  destruct (ensureUniqueName db _ _ _) as [e|];
    [exists (Throws e db); split; [done|]; simpl; rewrite Hfind; simpl; by rewrite Hs|].
  rewrite Hname.
  destruct (assign_same_slug (loaded p) data s Hs Hshape Hpayload) as [Hslug Hmod].
  destruct (assign_paths (loaded p) data) as [Hid Hnew].
  set (doc1 := assign (loaded p) data) in *.
  assert (Hdoc2 : match hasSlugInBody data with
                  | Some s0 => set_slug (Some (ProductRepo.slugify s0)) doc1
                  | None =>
                      if truthy_str (nameBase p) && negb (bool_decide (nameBase p = nameBase p))
                      then set_slug (Some (ProductRepo.slugify (nameBase p))) doc1
                      else doc1
                  end = doc1).
  { unfold hasSlugInBody. destruct Hpayload as [-> | ->].
    - rewrite bool_decide_eq_true_2 by done. by rewrite andb_false_r.
    - rewrite shaped_nonblank by done. apply (set_slug_same doc1 s); [done|].
      rewrite repo_slugify_same.
      rewrite slugify_fixes_shaped by done. by apply shaped_setter. }
  rewrite Hdoc2. unfold save.
  rewrite (preValidate_same doc1 s) by done.
  destruct (valid others_valid (paths doc1));
    [|exists (Throws ValidationError db); split; [done|]; simpl; rewrite Hfind; simpl; by rewrite Hs].
  unfold preSave. rewrite Hnew, Hmod. simpl.
  exists (Returns (Some (paths doc1)) (persist db doc1)). split; [done|]. simpl.
  apply findById_id in Hfind as Hpid. simpl in Hid. rewrite <- Hpid, <- Hid.
  rewrite (findById_persist db doc1 p); [simpl; by rewrite Hslug|done|]. by rewrite Hid, Hpid.
Qed.

Lemma update_keeps_slug_witness :
  ∃ r, update (H:=ascii_builtins) (H0:=vi_default) sample_others_valid
         [caramel_stored] 1 price_payload = Some r
       ∧ slug <$> findById (collection_of r) 1 = Some (Some (js "caramel-macchiato")).
Proof.
  apply (@update_keeps_slug ascii_builtins ascii_builtins_spec vi_default
           sample_others_valid [caramel_stored] 1 price_payload caramel_stored
           (js "caramel-macchiato")).
  - reflexivity.
  - reflexivity.
  - change (js "caramel-macchiato")
      with (ProductModel.slugify (H:=ascii_builtins) (js "Caramel Macchiato")).
    apply slugify_shaped.
  - discriminate.
  - left. reflexivity.
  - reflexivity.
Defined.

(** ** Stored slugs are slug-shaped *)

Lemma alnum_single_hyphens l :
  Forall (λ c, is_alnum c = true) l → single_hyphens l.
Proof.
  induction 1 as [|c r Hc _ IH]; [done|].
  apply single_hyphens_cons; [|done]. intros ->. by apply alnum_not_hyphen in Hc.
Qed.

Lemma single_hyphens_app a b :
  single_hyphens a → single_hyphens b →
  (last a = Some hyphen → head b ≠ Some hyphen) →
  single_hyphens (a ++ b).
Proof.
  induction a as [|x a IH]; [done|]. intros Ha Hb Hjoin.
  change ((x :: a) ++ b) with (x :: (a ++ b)).
  apply single_hyphens_cons.
  - intros ->. destruct a as [|y a']; simpl; [by apply Hjoin|].
    by apply (single_hyphens_head hyphen (y :: a')).
  - apply IH; [by eapply single_hyphens_tail|done|].
    intros Hl. apply Hjoin. destruct a; [done|]. by rewrite last_cons, Hl.
Qed.

Lemma suffixed_shaped base j :
  slug_shaped base → base ≠ [] → slug_shaped (suffixed base j).
Proof.
  intros [Hc Hs Hh Hl] Hne.
  pose proof (decimal_alnum j) as Hd. pose proof (decimal_nonempty j) as Hdn.
  split.
  - by apply suffixed_chars.
  - unfold suffixed. apply single_hyphens_app; [done| |done].
    apply single_hyphens_cons; [|by apply alnum_single_hyphens].
    intros _. destruct Hd as [|d ds Hd _]; [done|]. simpl.
    intros [= ->]. by apply alnum_not_hyphen in Hd.
  - unfold suffixed. by destruct base.
  - unfold suffixed. rewrite last_app, last_cons.
    destruct (last (decimal j)) as [d|] eqn:El.
    + intros [= ->]. apply last_Some_elem_of in El.
      rewrite Forall_forall in Hd. by apply Hd, alnum_not_hyphen in El.
    + by apply last_None in El.
Qed.

Lemma probe_result fuel taken base candidate i c :
  probe fuel taken base candidate i = Some c →
  c = candidate ∨ ∃ j, c = suffixed base j.
Proof.
  revert candidate i. induction fuel as [|fuel IH]; intros candidate i; simpl; [done|].
  destruct (taken candidate); [|by intros [= <-]; left].
  intros [-> | Hj]%IH; right; eauto.
Qed.

Section StoredSlugs.
Context `{BuiltinsSpec} `{Config}.
Variable others_valid : gmap jsstring jsval → bool.

Lemma preValidate_slug doc :
  ∃ x, slug (paths (preValidate doc)) = Some (ProductModel.slugify x).
Proof.
  unfold preValidate.
  destruct (truthy_str (default [] (slug (paths doc)))) eqn:E.
  - destruct (slug (paths doc)) as [s|]; [|done].
    exists s. rewrite set_slug_slug. simpl. f_equal. apply shaped_setter, slugify_shaped.
  - eexists. rewrite set_slug_slug. simpl. f_equal. apply shaped_setter, slugify_shaped.
Qed.

Lemma unique_candidate_shaped db p s :
  slug p = Some s → slug_shaped s → s ≠ [] →
  ∃ c, unique_candidate db p = Some c ∧ slug_shaped c ∧ c ≠ [].
Proof.
  intros Hs Hshape Hne.
  destruct (unique_candidate_total db p) as [c Hc]. exists c. split; [done|].
  apply truthy_str_nonempty in Hne as Ht.
  assert (Hp : or_product (Some s) = s) by (unfold or_product; by rewrite Ht).
  assert (Hb : baseInput p = s).
  { unfold baseInput. rewrite Hs. unfold or_else. by rewrite Ht. }
  unfold unique_candidate in Hc.
  rewrite Hb, slugify_fixes_shaped, Hp in Hc by done.
  apply probe_result in Hc as [-> | [j ->]]; [done|].
  split; [by apply suffixed_shaped|]. unfold suffixed. by destruct s.
Qed.

Lemma save_slug_shaped db doc q db' :
  save others_valid db doc = Some (Returns q db') →
  (∃ s, slug q = Some s ∧ slug_shaped s ∧ s ≠ [])
  ∧ ∃ doc', paths doc' = q ∧ isNew doc' = isNew doc
            ∧ _id q = _id (paths doc) ∧ db' = persist db doc'.
Proof.
  unfold save. destruct (valid _ _) eqn:Hv; [|done].
  destruct (preValidate_slug doc) as [x Hx].
  assert (Hne : ProductModel.slugify x ≠ []).
  { destruct (truthy_str (ProductModel.slugify x)) eqn:Et; [by apply truthy_str_nonempty|].
    unfold valid in Hv. rewrite Hx, Et in Hv. simpl in Hv.
    by rewrite andb_false_r in Hv. }
  assert (Hkeep : isNew (preValidate doc) = isNew doc
                  ∧ _id (paths (preValidate doc)) = _id (paths doc)).
  { unfold preValidate, set_slug.
    destruct (truthy_str _); by case_decide. }
  destruct Hkeep as [Hnew Hid].
  unfold preSave.
  destruct (isNew (preValidate doc) || slug_modified (preValidate doc)).
  - unfold ensureUniqueSlug.
    destruct (unique_candidate_shaped db (paths (preValidate doc)) (ProductModel.slugify x) Hx
                (slugify_shaped x) Hne) as (c & -> & Hc & Hcne).
    simpl. intros [= <- <-]. split.
    + exists c. rewrite set_slug_slug. simpl. by rewrite shaped_setter.
    + eexists. split; [done|]. unfold set_slug. by case_decide.
  - simpl. intros [= <- <-]. split; [|by eexists].
    exists (ProductModel.slugify x). split; [done|]. split; [apply slugify_shaped|done].
Qed.

Lemma persist_shaped db doc :
  stored_slugs_shaped db →
  (∃ s, slug (paths doc) = Some s ∧ slug_shaped s ∧ s ≠ []) →
  stored_slugs_shaped (persist db doc).
Proof.
  intros Hdb Hdoc. unfold persist, stored_slugs_shaped.
  destruct (isNew doc).
  - apply Forall_app. split; [done|]. by constructor.
  - apply Forall_fmap. eapply Forall_impl; [exact Hdb|].
    intros q Hq. simpl. by destruct (_id q =? _id (paths doc)).
Qed.

(** Whatever [create] and [update] leave behind holds slugs the hooks
    produce, if the collection before did. *)
Lemma create_slugs_shaped db new_id data r :
  stored_slugs_shaped db →
  create others_valid db new_id data = Some r →
  stored_slugs_shaped (collection_of r).
Proof.
  intros Hdb. unfold create.
  destruct (ensureUniqueName _ _ _ _); [by intros [= <-]|].
  destruct r as [q db'|e db'].
  - intros (Hq & doc' & <- & _ & _ & ->)%save_slug_shaped. by apply persist_shaped.
  - unfold save. destruct (valid _ _); [|by intros [= _ <-]].
    by destruct (preSave _ _).
Qed.

Lemma update_slugs_shaped db id data r :
  stored_slugs_shaped db →
  update others_valid db id data = Some r →
  stored_slugs_shaped (collection_of r).
Proof.
  intros Hdb. unfold update.
  destruct (findById db id); [|by intros [= <-]].
  destruct (ensureUniqueName _ _ _ _); [by intros [= <-]|].
  match goal with |- context [save ?o ?d ?x] => destruct (save o d x) as [[q db'|e db']|] eqn:Es end;
    [| |done].
  - intros [= <-]. simpl.
    apply save_slug_shaped in Es as (Hq & doc' & <- & _ & _ & ->). by apply persist_shaped.
  - intros [= <-]. simpl. unfold save in Es. destruct (valid _ _); [|by injection Es as _ <-].
    by destruct (preSave _ _).
Qed.

End StoredSlugs.

(** ** The locale priority chain *)

Lemma first_occurrences_elem l x : x ∈ first_occurrences l ↔ x ∈ l.
Proof.
  induction l as [|y r IH]; [done|]. simpl.
  rewrite !elem_of_cons, list_elem_of_filter, IH.
  destruct (decide (x = y)); tauto.
Qed.

Lemma first_occurrences_NoDup l : NoDup (first_occurrences l).
Proof.
  induction l as [|y r IH]; simpl; constructor.
  - rewrite list_elem_of_filter. tauto.
  - by apply NoDup_filter.
Qed.

Lemma array_from_set_acc seen xs :
  foldl set_add seen xs = seen ++ filter (λ y, y ∉ seen) (first_occurrences xs).
Proof.
  revert seen. induction xs as [|x r IH]; intros seen; simpl.
  - by rewrite filter_nil, app_nil_r.
  - rewrite IH. unfold set_add. rewrite filter_cons, list_filter_filter.
    case_bool_decide as Hx.
    + rewrite decide_False by (by intros Hn; apply Hn).
      f_equal. apply list_filter_iff. intros y. split; [|tauto].
      intros Hy. split; [done|]. by intros ->.
    + rewrite decide_True by done. rewrite <- app_assoc. simpl. do 2 f_equal.
      apply list_filter_iff. intros y. rewrite elem_of_app, list_elem_of_singleton.
      tauto.
Qed.

Lemma array_from_set_first_occurrences xs : array_from_set xs = first_occurrences xs.
Proof.
  unfold array_from_set. rewrite array_from_set_acc. simpl.
  induction (first_occurrences xs) as [|y r IH]; [done|].
  rewrite filter_cons, decide_True by apply not_elem_of_nil. by rewrite IH.
Qed.

(** C7. The chain is [locale, "en", DEFAULT_LOCALE, "vi"], in that order,
    without the entries that are not strings or are blank and with only
    the first occurrence of every entry kept; it has no duplicate and no
    blank entry. *)
Theorem buildLocalePriority_chain `{Config} (locale : jsval) :
  buildLocalePriority locale
  = first_occurrences
      (nonblank_strings [locale; VStr (js "en"); VStr DEFAULT_LOCALE; VStr (js "vi")])
  ∧ NoDup (buildLocalePriority locale)
  ∧ Forall (λ s, nonblank s = true) (buildLocalePriority locale).
Proof.
  assert (Heq : buildLocalePriority locale
                = first_occurrences
                    (nonblank_strings
                       [locale; VStr (js "en"); VStr DEFAULT_LOCALE; VStr (js "vi")])).
  { unfold buildLocalePriority. rewrite array_from_set_first_occurrences. f_equal.
    unfold nonblank_strings.
    generalize [locale; VStr (js "en"); VStr DEFAULT_LOCALE; VStr (js "vi")].
    induction l as [|v l IH]; [done|]. csimpl.
    destruct v; csimpl; try done.
    rewrite filter_cons. destruct (nonblank s) eqn:E.
    - rewrite decide_True by done. by rewrite IH.
    - rewrite decide_False by done. done. }
  split; [done|]. split.
  - rewrite Heq. apply first_occurrences_NoDup.
  - apply Forall_forall. intros s Hs. rewrite Heq in Hs.
    rewrite first_occurrences_elem in Hs.
    unfold nonblank_strings in Hs. by apply list_elem_of_filter in Hs as [Hs _].
Qed.

(** ** [pickLocalizedValue] *)

Lemma nonblank_nonempty v : nonblank v = true → v ≠ [].
Proof. by intros Hv ->. Qed.

Lemma text_at_Some value loc v :
  text_at value loc = Some v ↔ get value loc = VStr v ∧ nonblank v = true.
Proof.
  unfold text_at. destruct (get value loc) as [| | | |w| |];
    try (split; [done|by intros [? _]]).
  destruct (nonblank w) eqn:E.
  - split; [by intros [= <-]|by intros [[= <-] _]].
  - split; [done|]. intros [[= <-] Hv]. congruence.
Qed.

Lemma pick_loop_cons value loc rest :
  pick_loop value (loc :: rest)
  = match text_at value loc with
    | Some v => Some v
    | None => pick_loop value rest
    end.
Proof.
  simpl. unfold text_at. destruct (get value loc); try done. by destruct (nonblank s).
Qed.

Lemma pick_loop_Some value locales v :
  pick_loop value locales = Some v ↔
  ∃ before loc after,
    locales = before ++ loc :: after
    ∧ Forall (λ l, text_at value l = None) before
    ∧ get value loc = VStr v ∧ nonblank v = true.
Proof.
  induction locales as [|l rest IH].
  - split; [done|]. intros (before & loc & after & Heq & _). by destruct before.
  - rewrite pick_loop_cons. destruct (text_at value l) as [w|] eqn:E.
    + split.
      * intros [= <-]. apply text_at_Some in E as [Hg Hn].
        by exists [], l, rest.
      * intros (before & loc & after & Heq & Hb & Hg & Hn).
        destruct before as [|b before]; simplify_eq/=.
        -- assert (Ht : text_at value loc = Some v) by by apply text_at_Some.
           congruence.
        -- apply Forall_cons in Hb as [Hb _]. congruence.
    + rewrite IH. split.
      * intros (before & loc & after & -> & Hb & Hg & Hn).
        exists (l :: before), loc, after.
        split; [done|]. split; [by constructor|]. by split.
      * intros (before & loc & after & Heq & Hb & Hg & Hn).
        destruct before as [|b before]; simplify_eq/=.
        -- assert (Ht : text_at value loc = Some v) by by apply text_at_Some.
           congruence.
        -- apply Forall_cons in Hb as [_ Hb]. by exists before, loc, after.
Qed.

Lemma pick_loop_None value locales :
  pick_loop value locales = None ↔ Forall (λ l, text_at value l = None) locales.
Proof.
  induction locales as [|l rest IH]; [done|].
  rewrite pick_loop_cons, Forall_cons. destruct (text_at value l); [|by rewrite IH; tauto].
  split; [done|by intros [? _]].
Qed.

Lemma falsy_no_text value loc :
  typeof_string value = None → truthy value = false → text_at value loc = None.
Proof. by destruct value. Qed.

(** C6, as amended.  A non-empty plain string is returned unchanged and
    the empty string gives [undefined].  For any other value the result is
    the string the value holds, verbatim, at the first locale of the chain
    where it holds a string that is not blank, and [undefined] exactly
    when it holds none at any locale of the chain (as for [undefined],
    [null] or an empty object). *)
Theorem pickLocalizedValue_first_text (value : jsval) (locales : list jsstring) :
  (∀ s, value = VStr s → s ≠ [] → pickLocalizedValue value locales = Some s)
  ∧ (value = VStr [] → pickLocalizedValue value locales = None)
  ∧ (typeof_string value = None →
     (∀ v, pickLocalizedValue value locales = Some v ↔
           ∃ before loc after,
             locales = before ++ loc :: after
             ∧ Forall (λ l, text_at value l = None) before
             ∧ get value loc = VStr v ∧ nonblank v = true)
     ∧ (pickLocalizedValue value locales = None ↔
        Forall (λ l, text_at value l = None) locales)).
Proof.
  split; [|split].
  - intros s -> Hs. unfold pickLocalizedValue. simpl. by destruct s.
  - by intros ->.
  - intros Hv.
    assert (Hp : pickLocalizedValue value locales = pick_loop value locales).
    { unfold pickLocalizedValue. destruct (truthy value) eqn:Et; simpl.
      - by destruct value.
      - symmetry. apply pick_loop_None, Forall_forall. intros l _.
        by apply falsy_no_text. }
    rewrite Hp. split; [intros v; apply pick_loop_Some|apply pick_loop_None].
Qed.

(** The empty string is a plain string, and is not returned. *)
Lemma pickLocalizedValue_empty_string :
  pickLocalizedValue (VStr []) [js "en"; js "vi"] = None
  ∧ pickLocalizedValue (VStr []) [js "en"; js "vi"] ≠ Some [].
Proof. by split. Qed.

Lemma pickLocalizedValue_first_text_witness :
  pickLocalizedValue (VObj {[ js "vi" := VStr ca_phe ]}) [js "en"; js "vi"] = Some ca_phe.
Proof.
  destruct (pickLocalizedValue_first_text
              (VObj {[ js "vi" := VStr ca_phe ]}) [js "en"; js "vi"]) as (_ & _ & Hobj).
  destruct (Hobj eq_refl) as [Hsome _]. apply Hsome.
  exists [js "en"], (js "vi"), []. split; [reflexivity|]. split; [|split].
  - constructor; [|constructor]. vm_compute. reflexivity.
  - vm_compute. reflexivity.
  - vm_compute. reflexivity.
Defined.

(** ** [attachMetaFields] *)

Lemma pickLocalizedValue_nonempty value locales :
  pickLocalizedValue value locales ≠ Some [].
Proof.
  unfold pickLocalizedValue. destruct (truthy value) eqn:Et; simpl; [|done].
  assert (Hl : pick_loop value locales ≠ Some []).
  { intros (_ & _ & _ & _ & _ & _ & Hn)%pick_loop_Some. done. }
  destruct value; try done. by destruct s.
Qed.

Lemma or_else_first a b : b ≠ Some [] → or_else a b = first_nonempty [a; b].
Proof. intros Hb. destruct a as [[|c s]|], b as [[|d t]|]; done. Qed.

Lemma or_else_nonempty a b : a ≠ Some [] → b ≠ Some [] → or_else a b ≠ Some [].
Proof. intros Ha Hb. destruct a as [[|c s]|]; done. Qed.

Lemma first_nonempty_flat a l :
  first_nonempty [a; first_nonempty l] = first_nonempty (a :: l).
Proof.
  assert (Hl : first_nonempty [first_nonempty l] = first_nonempty l).
  { induction l as [|[[|c s]|] r IH]; done. }
  destruct a as [[|c s]|]; done.
Qed.

Lemma get_spread product k : get (VObj (spread product)) k = get product k.
Proof. by destruct product. Qed.

Lemma meta_keys_differ : js "metaDescription" ≠ js "metaTitle".
Proof. intros Heq. vm_compute in Heq. discriminate. Qed.

(** C8. [metaTitle] is the first of the resolved [seoTitle_i18n] and
    [name_i18n] bundles that is a non-empty string, [metaDescription] the
    first of the resolved [seoDescription_i18n], [shortDescription_i18n]
    and [description_i18n] bundles, each resolved by [pickLocalizedValue]
    along the priority chain of the locale; a field is [undefined] when
    none resolves, and every other property reads as it does on the
    document. *)
Theorem attachMetaFields_fields `{Config} (product locale : jsval) :
  let chain := buildLocalePriority locale in
  let resolved (field : string) := pickLocalizedValue (get product (js field)) chain in
  get (attachMetaFields product locale) (js "metaTitle")
  = of_option (first_nonempty [resolved "seoTitle_i18n"; resolved "name_i18n"]%string)
  ∧ get (attachMetaFields product locale) (js "metaDescription")
    = of_option (first_nonempty [resolved "seoDescription_i18n";
                                 resolved "shortDescription_i18n";
                                 resolved "description_i18n"]%string)
  ∧ ∀ k, k ≠ js "metaTitle" → k ≠ js "metaDescription" →
         get (attachMetaFields product locale) k = get product k.
Proof.
  intros chain resolved. unfold attachMetaFields. fold chain. split; [|split].
  - unfold get at 1. rewrite lookup_insert_ne by apply meta_keys_differ.
    rewrite lookup_insert_eq. simpl. f_equal.
    apply or_else_first, pickLocalizedValue_nonempty.
  - unfold get at 1. rewrite lookup_insert_eq. simpl. f_equal.
    rewrite or_else_first.
    + rewrite or_else_first by apply pickLocalizedValue_nonempty.
      apply first_nonempty_flat.
    + apply or_else_nonempty; apply pickLocalizedValue_nonempty.
  - intros k Ht Hd. rewrite <- (get_spread product k). unfold get.
    by rewrite !lookup_insert_ne.
Qed.

Lemma attachMetaFields_fields_witness :
  get (attachMetaFields (H:=vi_default) ca_phe_product (VStr (js "en"))) (js "slug")
  = VStr (js "ca-phe").
Proof.
  destruct (@attachMetaFields_fields vi_default ca_phe_product (VStr (js "en")))
    as (_ & _ & Hother).
  rewrite Hother; [reflexivity| |]; intros Heq; vm_compute in Heq; discriminate.
Defined.

(** ** Response headers *)

Section Vary.
Context `{Config}.
Variable detectLocale : jsval → jsstring.
Variable localizeDoc : jsval → jsval → list jsstring → jsval.
Variable localizeList : list jsval → jsval → list jsstring → list jsval.
Variable JSON_parse : jsstring → awaited jsval.

Lemma write_failed_headers fallback code msg :
  sent_headers (write_failed fallback code msg) = ∅.
Proof. unfold write_failed. by case_bool_decide. Qed.

Lemma createProduct_headers req created :
  sent_headers (createProduct detectLocale JSON_parse req created) = ∅.
Proof.
  unfold createProduct.
  repeat match goal with
         | |- context [write_failed ?f ?c ?m] =>
             rewrite (write_failed_headers f c m)
         | |- context [match ?x with _ => _ end] => destruct x eqn:?
         | |- _ => apply write_failed_headers
         end; done.
Qed.

Lemma updateProduct_headers req updated :
  sent_headers (updateProduct detectLocale JSON_parse req updated) = ∅.
Proof.
  unfold updateProduct.
  repeat match goal with
         | |- context [if ?x then _ else _] => destruct x eqn:?
         | |- context [match updated ?b with _ => _ end] => destruct (updated b) as [[?|]|??]
         | |- _ => apply write_failed_headers
         end; done.
Qed.

End Vary.

(** The meta fields of the response depend on the locale. *)
Lemma attachMetaFields_depends_on_locale :
  get (attachMetaFields (H:=vi_default) coffee_object (VStr (js "en"))) (js "metaTitle")
  = VStr (js "Coffee")
  ∧ get (attachMetaFields (H:=vi_default) coffee_object (VStr (js "vi"))) (js "metaTitle")
    = VStr ca_phe.
Proof. split; vm_compute; reflexivity. Qed.

(** C9 (the code departs from it).  [createProduct] answers a valid
    request with status 201 and the document with its meta fields
    resolved for the locale detected from [Accept-Language], and sets no
    [Vary] header; neither [createProduct] nor [updateProduct] sets any
    header on any path. *)
Theorem createProduct_renders_without_vary `{Config}
    (detectLocale : jsval → jsstring) (JSON_parse : jsstring → awaited jsval) :
  let response :=
    createProduct detectLocale JSON_parse coffee_request (λ _, Resolved coffee_object) in
  status response = 201
  ∧ json response
    = attachMetaFields coffee_object (VStr (detectLocale (VStr (js "en"))))
  ∧ sent_headers response !! js "Vary" = None
  ∧ (∀ req created,
       sent_headers (createProduct detectLocale JSON_parse req created) = ∅)
  ∧ (∀ req updated,
       sent_headers (updateProduct detectLocale JSON_parse req updated) = ∅).
Proof.
  assert (Hr : createProduct detectLocale JSON_parse coffee_request
                 (λ _, Resolved coffee_object)
               = respond 201
                   (attachMetaFields coffee_object
                      (VStr (detectLocale (VStr (js "en")))))).
  { reflexivity. }
  intros response. subst response. rewrite Hr. repeat split.
  - apply createProduct_headers.
  - apply updateProduct_headers.
Qed.

(** * Further properties of the code *)

(** ** [ProductModel.slugify] on ASCII text *)

Lemma ascii_not_combining c : is_ascii c = true → is_combining c = false.
Proof. char_solve. Qed.

Lemma space_not_alnum c : is_space c = true → is_alnum c = false.
Proof. char_solve. Qed.

Lemma hyphen_not_alnum c : is_hyphen c = true → is_alnum c = false.
Proof. char_solve. Qed.

Lemma strip_marks_ascii s : forallb is_ascii s = true → strip_marks s = s.
Proof.
  induction s as [|c r IH]; [done|]. simpl.
  intros [Hc Hr]%andb_true_iff. unfold strip_marks in *. simpl.
  by rewrite (ascii_not_combining c Hc), IH.
Qed.

Lemma alnum_trimStart s : List.filter is_alnum (trimStart s) = List.filter is_alnum s.
Proof.
  induction s as [|c r IH]; [done|]. simpl.
  destruct (is_space c) eqn:E; [|done]. by rewrite (space_not_alnum c E).
Qed.

Lemma alnum_reverse s : List.filter is_alnum (reverse s) = reverse (List.filter is_alnum s).
Proof.
  induction s as [|c r IH]; [done|].
  rewrite reverse_cons, List.filter_app, IH. simpl.
  destruct (is_alnum c); [by rewrite reverse_cons|by rewrite app_nil_r].
Qed.

Lemma alnum_trim s : List.filter is_alnum (trim s) = List.filter is_alnum s.
Proof.
  unfold trim, trimEnd.
  by rewrite alnum_reverse, alnum_trimStart, alnum_reverse, reverse_involutive,
    alnum_trimStart.
Qed.

Lemma alnum_collapse_runs in_run s :
  List.filter is_alnum (collapse_runs in_run s) = List.filter is_alnum s.
Proof.
  revert in_run. induction s as [|c r IH]; intros in_run; [done|]. simpl.
  destruct (is_alnum c) eqn:E; simpl; [by rewrite E, IH|].
  destruct in_run; simpl; by rewrite IH.
Qed.

Lemma alnum_drop_leading_hyphen s :
  List.filter is_alnum (drop_leading_hyphen s) = List.filter is_alnum s.
Proof.
  destruct s as [|c r]; [done|]. simpl.
  destruct (is_hyphen c) eqn:E; [|done]. by rewrite (hyphen_not_alnum c E).
Qed.

Lemma alnum_drop_trailing_hyphen s :
  List.filter is_alnum (drop_trailing_hyphen s) = List.filter is_alnum s.
Proof.
  induction s as [|a [|b r] IH]; [done| |].
  - simpl. destruct (is_hyphen a) eqn:E; [|done]. by rewrite (hyphen_not_alnum a E).
  - change (drop_trailing_hyphen (a :: b :: r)) with (a :: drop_trailing_hyphen (b :: r)).
    assert (Hcons : ∀ l, List.filter is_alnum (a :: l)
                         = if is_alnum a then a :: List.filter is_alnum l
                           else List.filter is_alnum l) by done.
    by rewrite !Hcons, IH.
Qed.

Lemma slugify_alnum `{BuiltinsSpec} s :
  forallb is_ascii s = true →
  List.filter is_alnum (ProductModel.slugify s) = List.filter is_alnum (lower_ascii <$> s).
Proof.
  intros Hs. unfold ProductModel.slugify, strip_edge_hyphens.
  rewrite alnum_drop_trailing_hyphen, alnum_drop_leading_hyphen, alnum_collapse_runs,
    alnum_trim.
  by rewrite (nfkd_ascii s Hs), (strip_marks_ascii s Hs), (toLowerCase_ascii s Hs).
Qed.

Lemma shaped_without_alnum s : slug_shaped s → List.filter is_alnum s = [] → s = [].
Proof.
  intros [Hc _ Hh _] Hf. destruct s as [|c r]; [done|]. exfalso.
  apply Forall_cons in Hc as [Hc _]. simpl in Hf.
  destruct (slug_char_cases c Hc) as [Ha | ->]; [by rewrite Ha in Hf|]. by apply Hh.
Qed.

(** X1. On ASCII text [ProductModel.slugify] keeps the letters and digits, lower-cased
    and in their order, and nothing else but hyphens between them. *)
Theorem slugify_keeps_letters_and_digits `{BuiltinsSpec} (s : jsstring) :
  forallb is_ascii s = true →
  List.filter is_alnum (ProductModel.slugify s) = List.filter is_alnum (lower_ascii <$> s)
  ∧ Forall (λ c, is_alnum c = true ∨ c = hyphen) (ProductModel.slugify s).
Proof.
  intros Hs. split; [by apply slugify_alnum|].
  eapply Forall_impl; [apply (shaped_chars _ (slugify_shaped s))|].
  apply slug_char_cases.
Qed.

Lemma slugify_keeps_letters_and_digits_witness :
  List.filter is_alnum (ProductModel.slugify (H:=ascii_builtins) (js "Ca Phe #1!"))
  = js "caphe1".
Proof.
  pose proof (@slugify_keeps_letters_and_digits ascii_builtins ascii_builtins_spec
                (js "Ca Phe #1!") eq_refl) as [Hk _].
  rewrite Hk. reflexivity.
Defined.

(** X2. An ASCII text normalises to the empty slug exactly when it holds
    no letter and no digit. *)
Theorem slugify_empty_iff `{BuiltinsSpec} (s : jsstring) :
  forallb is_ascii s = true →
  (ProductModel.slugify s = [] ↔ List.filter is_alnum (lower_ascii <$> s) = []).
Proof.
  intros Hs. rewrite <- (slugify_alnum s Hs). split; [by intros ->|].
  apply shaped_without_alnum, slugify_shaped.
Qed.

Lemma slugify_empty_iff_witness :
  ProductModel.slugify (H:=ascii_builtins) (js "?! -- #") = [].
Proof.
  apply (@slugify_empty_iff ascii_builtins ascii_builtins_spec (js "?! -- #") eq_refl).
  reflexivity.
Defined.

(** ** The write path of the repository *)

Section WritePath.
Context `{Builtins} `{Config}.
Variable others_valid : gmap jsstring jsval → bool.

Lemma set_slug_frame v doc :
  _id (paths (set_slug v doc)) = _id (paths doc)
  ∧ name_i18n (paths (set_slug v doc)) = name_i18n (paths doc)
  ∧ category (paths (set_slug v doc)) = category (paths doc)
  ∧ price (paths (set_slug v doc)) = price (paths doc)
  ∧ isPublished (paths (set_slug v doc)) = isPublished (paths doc)
  ∧ others (paths (set_slug v doc)) = others (paths doc)
  ∧ isNew (set_slug v doc) = isNew doc.
Proof. unfold set_slug. by case_decide. Qed.

(** The modified flag is never taken back, and a document that is not
    flagged after an assignment is the document before it. *)
Lemma set_slug_unmodified v doc :
  slug_modified (set_slug v doc) = false →
  slug_modified doc = false ∧ set_slug v doc = doc.
Proof. unfold set_slug. by case_decide. Qed.

Lemma preValidate_frame doc :
  _id (paths (preValidate doc)) = _id (paths doc)
  ∧ name_i18n (paths (preValidate doc)) = name_i18n (paths doc)
  ∧ category (paths (preValidate doc)) = category (paths doc)
  ∧ price (paths (preValidate doc)) = price (paths doc)
  ∧ isPublished (paths (preValidate doc)) = isPublished (paths doc)
  ∧ others (paths (preValidate doc)) = others (paths doc)
  ∧ isNew (preValidate doc) = isNew doc.
Proof. unfold preValidate. destruct (truthy_str _); apply set_slug_frame. Qed.

Lemma preValidate_unmodified doc :
  slug_modified (preValidate doc) = false →
  slug_modified doc = false ∧ preValidate doc = doc.
Proof. unfold preValidate. destruct (truthy_str _); apply set_slug_unmodified. Qed.

End WritePath.

Section WritePathSpec.
Context `{BuiltinsSpec} `{Config}.
Variable others_valid : gmap jsstring jsval → bool.

Lemma unique_candidate_free db p c :
  unique_candidate db p = Some c → slug_exists db (_id p) c = false.
Proof. unfold unique_candidate. apply probe_free. Qed.

(** What a [save] that goes through has written: the document after the
    [validate] hook when it is not new and its slug is not modified, and
    otherwise that document with the candidate the existence query
    reported free as its slug. *)
Lemma save_returns db doc q db' :
  save others_valid db doc = Some (Returns q db') →
  valid others_valid (paths (preValidate doc)) = true
  ∧ ∃ doc',
      q = paths doc' ∧ db' = persist db doc' ∧ isNew doc' = isNew doc
      ∧ _id q = _id (paths doc)
      ∧ name_i18n q = name_i18n (paths doc)
      ∧ category q = category (paths doc)
      ∧ price q = price (paths doc)
      ∧ isPublished q = isPublished (paths doc)
      ∧ ((isNew doc = false ∧ slug_modified (preValidate doc) = false
          ∧ doc' = preValidate doc)
         ∨ ((isNew doc = true ∨ slug_modified (preValidate doc) = true)
            ∧ ∃ c, unique_candidate db (paths (preValidate doc)) = Some c
                   ∧ slug q = Some c ∧ slug_exists db (_id q) c = false)).
Proof.
  unfold save. destruct (valid _ _) eqn:Hv; [|done]. intros H2. split; [done|].
  destruct (preValidate_frame doc) as (Hid & Hname & Hcat & Hprice & Hpub & Hoth & Hnew).
  unfold preSave in H2.
  destruct (isNew (preValidate doc) || slug_modified (preValidate doc)) eqn:Hm.
  - unfold ensureUniqueSlug in H2.
    destruct (unique_candidate db (paths (preValidate doc))) as [c|] eqn:Hc; [|done].
    simpl in H2. injection H2 as <- <-.
    destruct (set_slug_frame (Some c) (preValidate doc))
      as (Hid' & Hname' & Hcat' & Hprice' & Hpub' & Hoth' & Hnew').
    exists (set_slug (Some c) (preValidate doc)).
    rewrite Hid', Hname', Hcat', Hprice', Hpub', Hnew'.
    repeat split; try done. right. split.
    + rewrite <- Hnew. by apply orb_true_iff.
    + exists c. split; [done|]. split.
      * rewrite set_slug_slug. simpl. f_equal. apply slug_setter_id.
        by eapply unique_candidate_chars.
      * by apply unique_candidate_free.
  - simpl in H2. injection H2 as <- <-. exists (preValidate doc).
    apply orb_false_iff in Hm as [Hn Hmod].
    repeat split; try done. left. by rewrite <- Hnew.
Qed.

End WritePathSpec.

Lemma save_throws `{Builtins} `{Config} others_valid db doc e db' :
  save others_valid db doc = Some (Throws e db') → e = ValidationError ∧ db' = db.
Proof.
  unfold save. destruct (valid _ _); [|by intros [= <- <-]].
  by destruct (preSave _ _).
Qed.

Section FailedWrite.
Context `{Builtins} `{Config}.
Variable others_valid : gmap jsstring jsval → bool.

Lemma failed_write_unchanged db id data e db' :
  create others_valid db id data = Some (Throws e db')
  ∨ update others_valid db id data = Some (Throws e db') →
  db' = db.
Proof.
  intros [Hc | Hu].
  - unfold create in Hc.
    destruct (ensureUniqueName _ _ _ _); [by injection Hc|].
    by apply save_throws in Hc as [_ ->].
  - unfold update in Hu. destruct (findById db id); [|done].
    destruct (ensureUniqueName _ _ _ _); [by injection Hu|].
    match type of Hu with context [save ?o ?d ?x] =>
      destruct (save o d x) as [[]|] eqn:Es end; [done| |done].
    injection Hu as <- <-. by apply save_throws in Es as [_ ->].
Qed.

End FailedWrite.

(** X3. A [create] or an [update] that throws, for a duplicate name or a
    failed validation, leaves the collection as it was. *)
Theorem failed_write_leaves_collection `{Builtins} `{Config}
    (others_valid : gmap jsstring jsval → bool)
    (db : Collection) (id : ObjectId) (data : Payload) (e : Error) (db' : Collection) :
  create others_valid db id data = Some (Throws e db')
  ∨ update others_valid db id data = Some (Throws e db') →
  db' = db.
Proof. apply failed_write_unchanged. Qed.

Lemma failed_write_leaves_collection_witness :
  update (H:=ascii_builtins) (H0:=vi_default) sample_others_valid
    [caramel_stored] 1 negative_price_payload
  = Some (Throws ValidationError [caramel_stored])
  ∧ [caramel_stored] = [caramel_stored].
Proof.
  assert (Hu : update (H:=ascii_builtins) (H0:=vi_default) sample_others_valid
                 [caramel_stored] 1 negative_price_payload
               = Some (Throws ValidationError [caramel_stored])).
  { vm_compute. reflexivity. }
  split; [exact Hu|].
  exact (@failed_write_leaves_collection ascii_builtins vi_default sample_others_valid
           [caramel_stored] 1 negative_price_payload ValidationError [caramel_stored]
           (or_intror Hu)).
Defined.

(** X4. A [create] that goes through appends exactly one product to the
    collection: it has the generated [_id], the payload's name and price,
    the payload's category or [coffee], is published unless the payload
    says otherwise, and its slug is slug-shaped, not empty and one no
    stored product was reported to have. *)
Theorem create_appends_one_product `{BuiltinsSpec} `{Config}
    (others_valid : gmap jsstring jsval → bool)
    (db : Collection) (new_id : ObjectId) (data : Payload)
    (q : IProduct) (db' : Collection) :
  create others_valid db new_id data = Some (Returns q db') →
  db' = db ++ [q]
  ∧ _id q = new_id
  ∧ name_i18n q = p_name_i18n data
  ∧ category q = Some (new_category data)
  ∧ price q = p_price data
  ∧ isPublished q = default true (p_isPublished data)
  ∧ ∃ c, slug q = Some c ∧ slug_shaped c ∧ c ≠ []
         ∧ slug_exists db new_id c = false.
Proof.
  unfold create. destruct (ensureUniqueName _ _ _ _); [done|]. intros Hs.
  destruct (save_slug_shaped others_valid _ _ _ _ Hs) as [(c & Hc & Hshape & Hne) _].
  apply save_returns in Hs
    as (_ & doc' & -> & -> & Hnew & Hid & Hname & Hcat & Hprice & Hpub & Hslug).
  simpl in *. unfold persist. rewrite Hnew.
  do 6 (split; [done|]).
  exists c. do 3 (split; [done|]).
  destruct Hslug as [[? _] | (_ & c' & _ & Hc' & Hfree)]; [done|].
  assert (c' = c) as -> by congruence. by rewrite <- Hid.
Qed.

Lemma caramel_tea_created :
  create (H:=ascii_builtins) (H0:=vi_default) sample_others_valid
    [caramel_stored] 2 caramel_payload
  = Some (Returns caramel_tea [caramel_stored; caramel_tea]).
Proof. vm_compute. reflexivity. Qed.

Lemma create_appends_one_product_witness :
  [caramel_stored; caramel_tea] = [caramel_stored] ++ [caramel_tea]
  ∧ _id caramel_tea = 2.
Proof.
  pose proof (@create_appends_one_product ascii_builtins ascii_builtins_spec vi_default
                sample_others_valid [caramel_stored] 2 caramel_payload caramel_tea
                [caramel_stored; caramel_tea] caramel_tea_created) as (Hdb & Hid & _).
  by split.
Defined.

Section DerivedSlug.
Context `{BuiltinsSpec} `{Config}.

(** For a document that has a slug-shaped slug the loop starts from that
    slug. *)
Lemma unique_candidate_of_slug db p s :
  slug p = Some s → slug_shaped s → s ≠ [] →
  unique_candidate db p = probe (S (length db)) (slug_exists db (_id p)) s s 2.
Proof.
  intros Hs Hshape Hne. apply truthy_str_nonempty in Hne as Ht.
  assert (Hp : or_product (Some s) = s) by (unfold or_product; by rewrite Ht).
  assert (Hb : baseInput p = s).
  { unfold baseInput. rewrite Hs. unfold or_else. by rewrite Ht. }
  unfold unique_candidate. by rewrite Hb, slugify_fixes_shaped, Hp.
Qed.

Lemma unique_candidate_first db p s :
  slug p = Some s → slug_shaped s → s ≠ [] →
  (slug_exists db (_id p) s = false → unique_candidate db p = Some s)
  ∧ (slug_exists db (_id p) s = true →
     slug_exists db (_id p) (suffixed s 2) = false →
     unique_candidate db p = Some (suffixed s 2)).
Proof.
  intros Hs Hshape Hne. split.
  - intros Hfree. rewrite (unique_candidate_of_slug db p s) by done.
    simpl. by rewrite Hfree.
  - intros Htaken Hfree.
    assert (Ht : truthy_str s = true) by by apply truthy_str_nonempty.
    pose proof (unique_candidate_run db p 0) as Hrun. simpl in Hrun.
    assert (Hb : ProductModel.slugify (baseInput p) = s).
    { unfold baseInput. rewrite Hs. unfold or_else, or_product.
      rewrite Ht. simpl. rewrite Ht. by apply slugify_fixes_shaped. }
    rewrite Hb, Ht in Hrun. apply Hrun; [done|intros j Hj; lia|done].
Qed.

End DerivedSlug.

(** X5. A [create] whose payload has no slug and a non-empty English name
    stores the normalised English name as the slug when no stored product
    has it, and that slug with [-2] appended when one has it and none has
    the suffixed one. *)
Theorem create_slug_from_english_name `{BuiltinsSpec} `{Config}
    (others_valid : gmap jsstring jsval → bool)
    (db : Collection) (new_id : ObjectId) (data : Payload)
    (name : LocalizedString) (n : jsstring) (q : IProduct) (db' : Collection) :
  create others_valid db new_id data = Some (Returns q db') →
  mjoin (p_slug data) = None →
  p_name_i18n data = Some name → name !! js "en" = Some n → n ≠ [] →
  (slug_exists db new_id (ProductModel.slugify n) = false →
   slug q = Some (ProductModel.slugify n))
  ∧ (slug_exists db new_id (ProductModel.slugify n) = true →
     slug_exists db new_id (suffixed (ProductModel.slugify n) 2) = false →
     slug q = Some (suffixed (ProductModel.slugify n) 2)).
Proof.
  intros Hcreate Hslug Hname Hen Hn. unfold create in Hcreate.
  destruct (ensureUniqueName _ _ _ _); [done|].
  set (doc := construct new_id data (new_category data)) in *.
  assert (Hpre : slug (paths (preValidate doc)) = Some (ProductModel.slugify n)).
  { unfold preValidate. simpl. rewrite Hslug. simpl.
    rewrite set_slug_slug. simpl. rewrite (shaped_setter _ (slugify_shaped _)).
    do 2 f_equal. unfold name_base, name_at. simpl. rewrite Hname. simpl. rewrite Hen.
    apply truthy_str_nonempty in Hn as Ht.
    unfold or_else. rewrite Ht. unfold or_product. by rewrite Ht. }
  apply save_returns in Hcreate as (Hv & doc' & -> & _ & _ & Hid & _ & _ & _ & _ & Hs).
  destruct Hs as [[? _] | (_ & c & Hc & -> & _)]; [done|].
  assert (Hne : ProductModel.slugify n ≠ []).
  { destruct (truthy_str (ProductModel.slugify n)) eqn:Et; [by apply truthy_str_nonempty|].
    unfold valid in Hv. rewrite Hpre, Et in Hv. simpl in Hv.
    by rewrite andb_false_r in Hv. }
  destruct (unique_candidate_first db (paths (preValidate doc)) _ Hpre
              (slugify_shaped n) Hne) as [Hfree Htaken].
  destruct (preValidate_frame doc) as (Hpid & _). rewrite Hpid in Hfree, Htaken.
  simpl in Hfree, Htaken. split.
  - intros Hf. rewrite <- Hc. by apply Hfree.
  - intros Ht Hf. rewrite <- Hc. by apply Htaken.
Qed.

Lemma create_slug_from_english_name_witness :
  slug caramel_tea = Some (suffixed (ProductModel.slugify (H:=ascii_builtins) (js "Caramel Macchiato")) 2).
Proof.
  apply (@create_slug_from_english_name ascii_builtins ascii_builtins_spec vi_default
           sample_others_valid [caramel_stored] 2 caramel_payload
           {[ js "en" := js "Caramel Macchiato" ]} (js "Caramel Macchiato") caramel_tea
           [caramel_stored; caramel_tea] caramel_tea_created);
    [reflexivity|reflexivity|reflexivity|discriminate|reflexivity|reflexivity].
Defined.

(** ** Unique keys *)

Lemma slug_exists_false db id c :
  slug_exists db id c = false → ∀ p, p ∈ db → slug p = Some c → _id p = id.
Proof.
  intros Hf p Hin Hs. destruct (decide (_id p = id)) as [|Hne]; [done|].
  exfalso. apply not_true_iff_false in Hf. apply Hf.
  apply existsb_exists. exists p. split; [by apply list_elem_of_In|].
  apply andb_true_iff. split; [by apply bool_decide_eq_true|].
  by apply negb_true_iff, N.eqb_neq.
Qed.

Lemma replaced_ids q db : _id <$> replaced q db = _id <$> db.
Proof.
  unfold replaced. induction db as [|p r IH]; [done|]. csimpl. rewrite IH. f_equal.
  destruct (_id p =? _id q) eqn:E; [|done]. by apply N.eqb_eq in E.
Qed.

Lemma replaced_absent q db : _id q ∉ (_id <$> db) → replaced q db = db.
Proof.
  unfold replaced. induction db as [|p r IH]; [done|]. csimpl.
  rewrite not_elem_of_cons. intros [Hne Hr]. rewrite IH by done.
  destruct (_id p =? _id q) eqn:E; [|done]. apply N.eqb_eq in E. congruence.
Qed.

Lemma replaced_elem q db x : x ∈ replaced q db → x = q ∨ x ∈ db.
Proof.
  unfold replaced. intros (p & -> & Hin)%list_elem_of_fmap.
  destruct (_id p =? _id q); auto.
Qed.

Lemma replaced_same_slug q db :
  (∀ p, p ∈ db → _id p = _id q → slug p = slug q) →
  slug <$> replaced q db = slug <$> db.
Proof.
  unfold replaced. induction db as [|p r IH]; [done|]. intros Hs. csimpl.
  rewrite IH by (intros; apply Hs; [by right|done]). f_equal.
  destruct (_id p =? _id q) eqn:E; [|done]. apply N.eqb_eq in E.
  symmetry. apply Hs; [by left|done].
Qed.

Lemma replaced_keys_unique q db c :
  keys_unique db → slug q = Some c →
  (∀ p, p ∈ db → slug p = Some c → _id p = _id q) →
  keys_unique (replaced q db).
Proof.
  intros [Hids Hslugs] Hq Hfree. split; [by rewrite replaced_ids|].
  induction db as [|p r IH]; [constructor|].
  csimpl in *. apply NoDup_cons in Hids as [Hp Hids]. apply NoDup_cons in Hslugs as [Hps Hslugs].
  change (slug <$> replaced q (p :: r))
    with (slug (if _id p =? _id q then q else p) :: (slug <$> replaced q r)).
  destruct (_id p =? _id q) eqn:E.
  - apply N.eqb_eq in E. rewrite E in Hp. rewrite (replaced_absent q r Hp).
    constructor; [|done]. rewrite Hq. intros (x & Hx & Hin)%list_elem_of_fmap.
    apply Hp. apply list_elem_of_fmap. exists x. split; [|done].
    symmetry. apply Hfree; [by right|done].
  - apply N.eqb_neq in E. constructor.
    + intros (x & Hx & [-> | Hin]%replaced_elem)%list_elem_of_fmap.
      * apply E. apply Hfree; [by left|congruence].
      * apply Hps. apply list_elem_of_fmap. eauto.
    + apply IH; [done..|]. intros x Hin. apply Hfree. by right.
Qed.

Lemma persist_replaced db doc : isNew doc = false → persist db doc = replaced (paths doc) db.
Proof. intros Hn. unfold persist. by rewrite Hn. Qed.

Lemma findById_unique db id p x :
  NoDup (_id <$> db) → findById db id = Some p → x ∈ db → _id x = id → x = p.
Proof.
  unfold findById. induction db as [|y r IH]; [done|]. csimpl.
  intros [Hy Hr]%NoDup_cons. destruct (_id y =? id) eqn:E.
  - apply N.eqb_eq in E. intros [= <-] [-> | Hin]%elem_of_cons Hx; [done|].
    exfalso. apply Hy. apply list_elem_of_fmap. exists x. split; [congruence|done].
  - apply N.eqb_neq in E. intros Hf [-> | Hin]%elem_of_cons Hx; [done|]. by apply IH.
Qed.

Section Keys.
Context `{BuiltinsSpec} `{Config}.
Variable others_valid : gmap jsstring jsval → bool.

Lemma create_appends_one_product_parts db new_id data q db' :
  create others_valid db new_id data = Some (Returns q db') →
  db' = db ++ [q] ∧ _id q = new_id
  ∧ ∃ c, slug q = Some c ∧ slug_exists db new_id c = false.
Proof.
  unfold create. destruct (ensureUniqueName _ _ _ _); [done|]. intros Hs.
  apply save_returns in Hs
    as (_ & doc' & -> & -> & Hnew & Hid & _ & _ & _ & _ & Hslug).
  simpl in *. unfold persist. rewrite Hnew. do 2 (split; [done|]).
  destruct Hslug as [[? _] | (_ & c & _ & Hc & Hfree)]; [done|].
  exists c. split; [done|]. by rewrite <- Hid.
Qed.

Lemma assign_unmodified doc data :
  slug_modified (assign doc data) = false →
  slug (paths (assign doc data)) = slug (paths doc).
Proof.
  unfold assign. destruct (p_slug data) as [v|]; [|done].
  by intros [_ ->]%set_slug_unmodified.
Qed.

(** What an [update] that goes through has written. *)
Lemma update_returns db id data q db' :
  update others_valid db id data = Some (Returns (Some q) db') →
  ∃ p, findById db id = Some p ∧ _id q = id ∧ db' = replaced q db
       ∧ name_i18n q = from_option Some (name_i18n p) (p_name_i18n data)
       ∧ category q = from_option Some (category p) (p_category data)
       ∧ price q = from_option Some (price p) (p_price data)
       ∧ isPublished q = default (isPublished p) (p_isPublished data)
       ∧ (slug q = slug p
          ∨ ∃ c, slug q = Some c ∧ slug_exists db id c = false).
Proof.
  unfold update. destruct (findById db id) as [p|] eqn:Hf; [|done].
  destruct (ensureUniqueName _ _ _ _); [done|].
  match goal with |- context [save ?o ?d ?x] =>
    set (doc2 := x); destruct (save o d doc2) as [[q' db''|]|] eqn:Es end; [|done..].
  intros [= -> ->]. exists p. split; [done|].
  apply findById_id in Hf as Hpid.
  set (doc1 := assign (loaded p) data) in *.
  assert (Hdoc2 : doc2 = doc1 ∨ ∃ v, doc2 = set_slug v doc1).
  { subst doc2. destruct (hasSlugInBody data); [right; eauto|].
    destruct (_ && _); [right; eauto|by left]. }
  assert (Hframe1 : _id (paths doc1) = id
                    ∧ name_i18n (paths doc1) = from_option Some (name_i18n p) (p_name_i18n data)
                    ∧ category (paths doc1) = from_option Some (category p) (p_category data)
                    ∧ price (paths doc1) = from_option Some (price p) (p_price data)
                    ∧ isPublished (paths doc1) = default (isPublished p) (p_isPublished data)
                    ∧ others (paths doc1) = p_others data ∪ others p
                    ∧ isNew doc1 = false).
  { subst doc1. unfold assign. destruct (p_slug data) as [v|]; [|done].
    match goal with |- context [set_slug v ?d] =>
      destruct (set_slug_frame v d) as (-> & -> & -> & -> & -> & -> & ->) end. done. }
  assert (Hframe2 : _id (paths doc2) = id
                    ∧ name_i18n (paths doc2) = from_option Some (name_i18n p) (p_name_i18n data)
                    ∧ category (paths doc2) = from_option Some (category p) (p_category data)
                    ∧ price (paths doc2) = from_option Some (price p) (p_price data)
                    ∧ isPublished (paths doc2) = default (isPublished p) (p_isPublished data)
                    ∧ others (paths doc2) = p_others data ∪ others p
                    ∧ isNew doc2 = false).
  { destruct Hdoc2 as [-> | [v ->]]; [done|].
    by destruct (set_slug_frame v doc1) as (-> & -> & -> & -> & -> & -> & ->). }
  destruct Hframe2 as (Hid2 & Hn2 & Hc2 & Hp2 & Hpub2 & Ho2 & Hnew2).
  apply save_returns in Es
    as (_ & doc' & -> & -> & Hnew & Hid & Hname & Hcat & Hprice & Hpub & Hslug).
  rewrite Hnew2 in Hnew. rewrite persist_replaced by done.
  rewrite Hid, Hname, Hcat, Hprice, Hpub.
  do 6 (split; [done|]).
  destruct Hslug as [(_ & Hmod & ->) | (_ & c & _ & Hc & Hfree)].
  - left. apply preValidate_unmodified in Hmod as [Hmod ->].
    assert (Heq : doc2 = doc1 ∧ slug_modified doc1 = false).
    { destruct Hdoc2 as [-> | [v ->]]; [done|].
      by apply set_slug_unmodified in Hmod as [? ->]. }
    destruct Heq as [-> Hm1]. by apply (assign_unmodified (loaded p) data).
  - right. exists c. split; [done|]. by rewrite <- Hid2, <- Hid.
Qed.

End Keys.

(** X6. Writes keep the keys unique: from a collection with no two
    products sharing an [_id] or a slug, a [create] with a fresh [_id] and
    any [update] leave such a collection, whether they go through or
    throw. *)
Theorem writes_keep_keys_unique `{BuiltinsSpec} `{Config}
    (others_valid : gmap jsstring jsval → bool)
    (db : Collection) (id : ObjectId) (data : Payload) (db' : Collection) :
  keys_unique db →
  ((id ∉ (_id <$> db))
   ∧ (∃ r, create others_valid db id data = Some r ∧ collection_of r = db'))
  ∨ (∃ r, update others_valid db id data = Some r ∧ collection_of r = db') →
  keys_unique db'.
Proof.
  intros Hk [(Hfresh & r & Hc & <-) | (r & Hu & <-)].
  - destruct r as [q db1|e db1]; simpl.
    + apply create_appends_one_product_parts in Hc as (-> & Hid & c & Hs & Hfree).
      destruct Hk as [Hids Hslugs]. split; rewrite fmap_app; apply NoDup_app.
      * split; [done|]. split; [|apply NoDup_singleton].
        intros x Hx ->%list_elem_of_singleton. simpl in Hfresh. congruence.
      * split; [done|]. split; [|apply NoDup_singleton].
        intros x Hx ->%list_elem_of_singleton.
        apply list_elem_of_fmap in Hx as (p & Hp & Hin).
        apply Hfresh. apply list_elem_of_fmap. exists p. split; [|done].
        symmetry. apply (slug_exists_false db id c); [done..|congruence].
    + by rewrite (failed_write_unchanged others_valid db id data e db1 (or_introl Hc)).
  - destruct r as [[q|] db1|e db1]; simpl.
    + apply update_returns in Hu as (p & Hf & Hid & -> & _ & _ & _ & _ & Hslug).
      destruct Hslug as [Hsame | (c & Hc & Hfree)].
      * destruct Hk as [Hids Hslugs]. split; [by rewrite replaced_ids|].
        rewrite replaced_same_slug; [done|].
        intros x Hin Hx. rewrite Hsame. f_equal.
        apply (findById_unique db id); [done..|]. by rewrite Hx.
      * apply (replaced_keys_unique q db c); [done..|].
        intros x Hin Hx. rewrite Hid. by apply (slug_exists_false db id c).
    + unfold update in Hu. destruct (findById db id); [|by injection Hu as <-].
      destruct (ensureUniqueName _ _ _ _); [done|].
      match type of Hu with context [save ?o ?d ?x] => by destruct (save o d x) as [[]|] end.
    + by rewrite (failed_write_unchanged others_valid db id data e db1 (or_intror Hu)).
Qed.

Lemma writes_keep_keys_unique_witness :
  keys_unique [caramel_stored] ∧ keys_unique [caramel_stored; caramel_tea].
Proof.
  assert (Hk : keys_unique [caramel_stored]) by (split; apply NoDup_singleton).
  split; [exact Hk|].
  apply (@writes_keep_keys_unique ascii_builtins ascii_builtins_spec vi_default
           sample_others_valid [caramel_stored] 2 caramel_payload _ Hk).
  left. split.
  - intros Hin%list_elem_of_singleton. discriminate.
  - eexists. split; [apply caramel_tea_created|reflexivity].
Defined.

(** ** [update] *)

(** X7. An [update] ends with [PRODUCT_NAME_DUPLICATE] exactly when
    another stored product (one with a different [_id]) of the category
    the update results in has the resulting name's non-empty [vi] or [en]
    text in that locale; the category and the name are the payload's when
    it gives them and the stored ones otherwise, so a product never
    conflicts with itself. *)
Theorem update_rejects_names_of_other_products `{Builtins} `{Config}
    (others_valid : gmap jsstring jsval → bool)
    (db : Collection) (id : ObjectId) (data : Payload) (db' : Collection) :
  update others_valid db id data = Some (Throws PRODUCT_NAME_DUPLICATE db')
  ↔ db' = db
    ∧ ∃ p category name,
        findById db id = Some p
        ∧ or_else (p_category data) (ProductModel.category p) = Some category
        ∧ category ≠ []
        ∧ from_option Some (name_i18n p) (p_name_i18n data) = Some name
        ∧ vi_en_conflict db category name (Some id).
Proof.
  unfold update. destruct (findById db id) as [p|] eqn:Hf.
  - apply findById_id in Hf as Hid. rewrite Hid.
    destruct (or_else (p_category data) (ProductModel.category p)) as [category|] eqn:Hcat.
    + destruct (from_option Some (name_i18n p) (p_name_i18n data)) as [name|] eqn:Hnm.
      * destruct (ensureUniqueName_cases db (Some category) (Some name) (Some id))
          as [Hn | Hd]; rewrite ?Hn, ?Hd.
        -- split.
           ++ match goal with |- context [save ?o ?d ?x] =>
                pose proof (save_not_duplicate o d x db') as Hs;
                destruct (save o d x) as [[]|] end; congruence.
           ++ intros (_ & p' & category' & name' & Hp' & Hcat' & Hne & Hnm' & Hc).
              simplify_eq. exfalso.
              assert (Hd : ensureUniqueName db (Some category) (Some name) (Some (_id p'))
                           = Some PRODUCT_NAME_DUPLICATE)
                by by apply ensureUniqueName_duplicate.
              congruence.
        -- apply ensureUniqueName_duplicate in Hd as [Hne Hc]. split.
           ++ intros [= <-]. split; [done|]. by exists p, category, name.
           ++ by intros [-> _].
      * assert (ensureUniqueName db (Some category) None (Some id) = None) as ->
          by by destruct category.
        split.
        -- match goal with |- context [save ?o ?d ?x] =>
             pose proof (save_not_duplicate o d x db') as Hs;
             destruct (save o d x) as [[]|] end; congruence.
        -- intros (_ & p' & ? & ? & Hp' & _ & _ & Hnm' & _). simplify_eq.
    + simpl. split.
      * match goal with |- context [save ?o ?d ?x] =>
          pose proof (save_not_duplicate o d x db') as Hs;
          destruct (save o d x) as [[]|] end; congruence.
      * intros (_ & p' & ? & ? & Hp' & Hcat' & _). simplify_eq.
  - split; [done|]. by intros (_ & ? & ? & ? & ? & _).
Qed.

Section UpdateSpec.
Context `{BuiltinsSpec} `{Config}.
Variable others_valid : gmap jsstring jsval → bool.

(** A stored document whose slug is set to a slug-shaped text comes out
    of [save] with that text as its slug when no other product has it. *)
Lemma save_with_slug db doc t q db' :
  isNew doc = false → slug (paths doc) = Some t → slug_shaped t → t ≠ [] →
  slug_exists db (_id (paths doc)) t = false →
  save others_valid db doc = Some (Returns q db') →
  slug q = Some t.
Proof.
  intros Hnew Hs Hshape Hne Hfree Hsave.
  pose proof (preValidate_same doc t Hs Hshape Hne) as Hpre.
  apply save_returns in Hsave as (_ & doc' & -> & _ & _ & _ & _ & _ & _ & _ & Hslug).
  rewrite Hpre in Hslug.
  destruct Hslug as [(_ & _ & ->) | (_ & c & Hc & -> & _)]; [done|].
  rewrite <- Hc. by apply (unique_candidate_first db (paths doc) t).
Qed.

Lemma update_saves db id data q db' :
  update others_valid db id data = Some (Returns (Some q) db') →
  ∃ p, findById db id = Some p
       ∧ save others_valid db (update_document p data) = Some (Returns q db').
Proof.
  unfold update. destruct (findById db id) as [p|]; [|done].
  destruct (ensureUniqueName _ _ _ _); [done|].
  change (match save others_valid db (update_document p data) with
          | Some (Returns q0 db0) => Some (Returns (Some q0) db0)
          | Some (Throws e db0) => Some (Throws e db0)
          | None => None
          end = Some (Returns (Some q) db') →
          ∃ p0, Some p = Some p0
                ∧ save others_valid db (update_document p0 data) = Some (Returns q db')).
  intros Hs. exists p. split; [done|].
  destruct (save others_valid db (update_document p data)) as [[]|]; [|done..].
  by injection Hs as -> ->.
Qed.

Lemma update_document_frame p data :
  _id (paths (update_document p data)) = _id p
  ∧ isNew (update_document p data) = false.
Proof.
  assert (Ha : _id (paths (assign (loaded p) data)) = _id p
               ∧ isNew (assign (loaded p) data) = false)
    by apply (assign_paths (loaded p) data).
  unfold update_document. destruct (hasSlugInBody data) as [s0|].
  - by destruct (set_slug_frame (Some (ProductRepo.slugify s0)) (assign (loaded p) data))
      as (-> & _ & _ & _ & _ & _ & ->).
  - destruct (_ && _); [|done].
    match goal with |- context [set_slug ?v ?d] =>
      by destruct (set_slug_frame v d) as (-> & _ & _ & _ & _ & _ & ->) end.
Qed.

(** An update that asks for a slug [t], in the body or through a new
    name, stores it when it is not empty and no other product has it. *)
Lemma update_with_slug db id data p t q db' :
  findById db id = Some p →
  slug (paths (update_document p data)) = Some (ProductModel.slugify t) →
  ProductModel.slugify t ≠ [] →
  slug_exists db id (ProductModel.slugify t) = false →
  update others_valid db id data = Some (Returns (Some q) db') →
  slug q = Some (ProductModel.slugify t).
Proof.
  intros Hf Hs Hne Hfree (p' & Hf' & Hsave)%update_saves.
  assert (p' = p) as -> by congruence.
  destruct (update_document_frame p data) as [Hid Hnew].
  apply findById_id in Hf as Hpid.
  eapply save_with_slug; [exact Hnew|exact Hs|apply slugify_shaped|exact Hne| |exact Hsave].
  by rewrite Hid, Hpid.
Qed.

End UpdateSpec.

(** X8. An [update] returns [null] only when no product has the [_id],
    and then the collection is as it was.  One that returns a product
    returns the one with that [_id], written over the stored one and over
    nothing else; its name, category, price and publication flag are the
    payload's where the payload has them and the stored ones
    elsewhere. *)
Theorem update_merges_payload `{BuiltinsSpec} `{Config}
    (others_valid : gmap jsstring jsval → bool)
    (db : Collection) (id : ObjectId) (data : Payload) :
  (∀ db', update others_valid db id data = Some (Returns None db') →
          findById db id = None ∧ db' = db)
  ∧ ∀ q db',
      update others_valid db id data = Some (Returns (Some q) db') →
      ∃ p, findById db id = Some p ∧ _id q = id ∧ db' = replaced q db
           ∧ name_i18n q = from_option Some (name_i18n p) (p_name_i18n data)
           ∧ category q = from_option Some (category p) (p_category data)
           ∧ price q = from_option Some (price p) (p_price data)
           ∧ isPublished q = default (isPublished p) (p_isPublished data).
Proof.
  split.
  - intros db'. unfold update. destruct (findById db id) as [p|]; [|by intros [= <-]].
    destruct (ensureUniqueName _ _ _ _); [done|].
    by destruct (save _ _ _) as [[]|].
  - intros q db' Hu.
    apply update_returns in Hu as (p & Hf & Hid & Hdb & Hn & Hc & Hp & Hpub & _).
    by exists p.
Qed.

Lemma caramel_repriced_updated :
  update (H:=ascii_builtins) (H0:=vi_default) sample_others_valid
    [caramel_stored] 1 price_payload
  = Some (Returns (Some caramel_repriced) [caramel_repriced]).
Proof. vm_compute. reflexivity. Qed.

Lemma update_merges_payload_witness :
  ∃ p, findById [caramel_stored] 1 = Some p ∧ _id caramel_repriced = 1
       ∧ [caramel_repriced] = replaced caramel_repriced [caramel_stored]
       ∧ name_i18n caramel_repriced
         = from_option Some (name_i18n p) (p_name_i18n price_payload).
Proof.
  destruct (@update_merges_payload ascii_builtins ascii_builtins_spec vi_default
              sample_others_valid [caramel_stored] 1 price_payload) as [_ Hm].
  destruct (Hm _ _ caramel_repriced_updated) as (p & Hf & Hid & Hdb & Hn & _).
  by exists p.
Defined.

(** X9. An [update] whose body carries a slug that is not blank and does
    not normalise to the empty string stores the normalised text as the
    slug when no other product has it. *)
Theorem update_stores_slug_of_body `{BuiltinsSpec} `{Config}
    (others_valid : gmap jsstring jsval → bool)
    (db : Collection) (id : ObjectId) (data : Payload) (s : jsstring)
    (q : IProduct) (db' : Collection) :
  update others_valid db id data = Some (Returns (Some q) db') →
  p_slug data = Some (Some s) → nonblank s = true →
  ProductModel.slugify s ≠ [] →
  slug_exists db id (ProductModel.slugify s) = false →
  slug q = Some (ProductModel.slugify s).
Proof.
  intros Hu Hs Hb Hne Hfree.
  destruct (update_saves others_valid _ _ _ _ _ Hu) as (p & Hf & _).
  apply (update_with_slug others_valid db id data p s q db'); try done.
  unfold update_document, hasSlugInBody. rewrite Hs, Hb, set_slug_slug. simpl.
  by rewrite repo_slugify_same, (shaped_setter _ (slugify_shaped _)).
Qed.

Lemma house_blend_updated :
  update (H:=ascii_builtins) (H0:=vi_default) sample_others_valid
    [caramel_stored] 1 reslug_payload
  = Some (Returns (Some house_blend) [house_blend]).
Proof. vm_compute. reflexivity. Qed.

Lemma update_stores_slug_of_body_witness :
  slug house_blend = Some (ProductModel.slugify (H:=ascii_builtins) (js " House Blend ")).
Proof.
  apply (@update_stores_slug_of_body ascii_builtins ascii_builtins_spec vi_default
           sample_others_valid [caramel_stored] 1 reslug_payload (js " House Blend ")
           house_blend [house_blend] house_blend_updated);
    [reflexivity|reflexivity|discriminate|reflexivity].
Defined.

(** X10. An [update] without a slug in the body that changes the name the
    slug derives from ([en || default || vi]) to a non-empty text
    re-derives the slug: the normalised new name is stored when it is not
    empty and no other product has it. *)
Theorem update_rederives_slug_on_rename `{BuiltinsSpec} `{Config}
    (others_valid : gmap jsstring jsval → bool)
    (db : Collection) (id : ObjectId) (data : Payload) (p q : IProduct)
    (db' : Collection) :
  let renamed := nameBase (paths (assign (loaded p) data)) in
  update others_valid db id data = Some (Returns (Some q) db') →
  findById db id = Some p →
  p_slug data = None →
  renamed ≠ [] → renamed ≠ nameBase p →
  ProductModel.slugify renamed ≠ [] →
  slug_exists db id (ProductModel.slugify renamed) = false →
  slug q = Some (ProductModel.slugify renamed).
Proof.
  intros renamed Hu Hf Hs Hn Hch Hne Hfree.
  apply (update_with_slug others_valid db id data p renamed q db'); try done.
  unfold update_document, hasSlugInBody. rewrite Hs. fold renamed.
  apply truthy_str_nonempty in Hn as ->.
  rewrite bool_decide_eq_false_2 by done. simpl.
  rewrite set_slug_slug. simpl.
  by rewrite repo_slugify_same, (shaped_setter _ (slugify_shaped _)).
Qed.

Lemma flat_white_updated :
  update (H:=ascii_builtins) (H0:=vi_default) sample_others_valid
    [caramel_stored] 1 rename_payload
  = Some (Returns (Some flat_white) [flat_white]).
Proof. vm_compute. reflexivity. Qed.

Lemma update_rederives_slug_on_rename_witness :
  slug flat_white = Some (js "flat-white").
Proof.
  apply (@update_rederives_slug_on_rename ascii_builtins ascii_builtins_spec vi_default
           sample_others_valid [caramel_stored] 1 rename_payload caramel_stored flat_white
           [flat_white] flat_white_updated);
    [reflexivity|reflexivity|discriminate|discriminate|discriminate|reflexivity].
Defined.

(** ** [getBySlug] *)

Lemma getBySlug_app `{Builtins} db q t :
  Some (slug_setter t) ∉ (slug <$> db) → getBySlug (db ++ [q]) t = getBySlug [q] t.
Proof.
  unfold getBySlug. induction db as [|p r IH]; [done|]. csimpl.
  intros [Hp Hr]%not_elem_of_cons.
  rewrite bool_decide_eq_false_2 by congruence. simpl. by apply IH.
Qed.

(** X12. [getBySlug] looks up the text asked for as the setters of [slug]
    leave it (lower-cased and trimmed) and hands back only a published
    product that has exactly that slug.  After a [create] with a fresh
    [_id] the new product is found under every text the setters turn into
    the slug it was given, the slug itself among them, when it is
    published, and nothing is found under them when it is not. *)
Theorem getBySlug_finds_created_product `{BuiltinsSpec} `{Config}
    (others_valid : gmap jsstring jsval → bool)
    (db : Collection) (new_id : ObjectId) (data : Payload)
    (q : IProduct) (db' : Collection) (c : jsstring) :
  create others_valid db new_id data = Some (Returns q db') →
  new_id ∉ (_id <$> db) →
  slug q = Some c →
  (∀ t p, getBySlug db' t = Some p →
          slug p = Some (slug_setter t) ∧ isPublished p = true ∧ p ∈ db')
  ∧ slug_setter c = c
  ∧ (∀ t, slug_setter t = c →
          getBySlug db' t = (if isPublished q then Some q else None)).
Proof.
  intros Hc Hfresh Hs. split; [|split].
  - intros t p Hg. unfold getBySlug in Hg. apply find_some in Hg as [Hin Hp].
    apply andb_true_iff in Hp as [Hp%bool_decide_eq_true Hpub].
    split; [done|]. split; [done|]. by apply list_elem_of_In.
  - unfold create in Hc. destruct (ensureUniqueName _ _ _ _); [done|].
    apply save_slug_shaped in Hc as [(s & Hs' & Hshape & _) _].
    assert (s = c) as -> by congruence. by apply shaped_setter.
  - intros t Ht.
    apply create_appends_one_product_parts in Hc as (-> & Hid & c' & Hs' & Hfree).
    assert (c' = c) as -> by congruence.
    rewrite getBySlug_app.
    + unfold getBySlug. simpl. rewrite Ht, Hs, bool_decide_eq_true_2 by done. simpl.
      by destruct (isPublished q).
    + rewrite Ht. intros (p & Hp & Hin)%list_elem_of_fmap. apply Hfresh.
      apply list_elem_of_fmap. exists p. split; [|done].
      symmetry. by apply (slug_exists_false db new_id c).
Qed.

Lemma getBySlug_finds_created_product_witness :
  getBySlug (H:=ascii_builtins) [caramel_stored; caramel_tea]
    (js " Caramel-Macchiato-2 ") = Some caramel_tea.
Proof.
  destruct (@getBySlug_finds_created_product ascii_builtins ascii_builtins_spec vi_default
              sample_others_valid [caramel_stored] 2 caramel_payload caramel_tea
              [caramel_stored; caramel_tea] (js "caramel-macchiato-2") caramel_tea_created)
    as (_ & _ & Hg); [|reflexivity|apply Hg; reflexivity].
  intros Hin%list_elem_of_singleton. discriminate.
Defined.

(** ** The handlers *)

Section ReadHandlers.
Context `{Config}.
Variable detectLocale : jsval → jsstring.
Variable localizeDoc : jsval → jsval → list jsstring → jsval.
Variable localizeList : list jsval → jsval → list jsstring → list jsval.
Variable JSON_parse : jsstring → awaited jsval.

Lemma respond_vary_ok v : vary_iff_ok (respond_vary v).
Proof. by left. Qed.

Lemma respond_not_ok n v : n ≠ 200 → vary_iff_ok (respond n v).
Proof. by right. Qed.

Lemma getProductBySlug_vary req found :
  vary_iff_ok (getProductBySlug detectLocale localizeDoc req found).
Proof.
  unfold getProductBySlug. destruct found as [[obj|]|]; try by apply respond_not_ok.
  destruct (negb (shouldLocalize req)); apply respond_vary_ok.
Qed.

Lemma list_handler_vary failure req listed :
  vary_iff_ok (list_handler detectLocale localizeList failure req listed).
Proof.
  unfold list_handler. destruct listed; [|by apply respond_not_ok].
  destruct (negb (shouldLocalize req)); apply respond_vary_ok.
Qed.

Lemma lineup_handler_vary failure req listed :
  vary_iff_ok (lineup_handler detectLocale localizeList failure req listed).
Proof.
  unfold lineup_handler. destruct listed; [|by apply respond_not_ok].
  destruct (negb (shouldLocalize req)); apply respond_vary_ok.
Qed.

Lemma render_vary req plain :
  vary_iff_ok (HomeContentController.render detectLocale localizeDoc req plain).
Proof.
  unfold HomeContentController.render.
  destruct (negb (shouldLocalize req)); apply respond_vary_ok.
Qed.

Lemma getHomeContent_vary req home :
  vary_iff_ok (HomeContentController.getHomeContent detectLocale localizeDoc req home).
Proof.
  unfold HomeContentController.getHomeContent.
  destruct home as [[plain|]|]; try by apply respond_not_ok.
  apply render_vary.
Qed.

Lemma upsertHomeContent_vary req upserted reloaded :
  vary_iff_ok (HomeContentController.upsertHomeContent detectLocale localizeDoc JSON_parse
                 req upserted reloaded).
Proof.
  unfold HomeContentController.upsertHomeContent.
  repeat match goal with
         | |- context [if ?x then _ else _] => destruct x
         end; try by apply respond_not_ok.
  destruct (upserted _); [|by apply respond_not_ok].
  destruct reloaded as [[plain|]|]; try by apply respond_not_ok.
  apply render_vary.
Qed.

End ReadHandlers.

(** X13. Every handler that reads products or the home content, and the
    home-content upsert, answers either with status 200 and the header
    [Vary: Accept-Language], or with another status and no header. *)
Theorem read_handlers_vary_on_success `{Config}
    (detectLocale : jsval → jsstring)
    (localizeDoc : jsval → jsval → list jsstring → jsval)
    (localizeList : list jsval → jsval → list jsstring → list jsval)
    (JSON_parse : jsstring → awaited jsval) (req : Request) :
  (∀ found, vary_iff_ok (getProductBySlug detectLocale localizeDoc req found))
  ∧ (∀ listed, vary_iff_ok (getProducts detectLocale localizeList req listed))
  ∧ (∀ listed, vary_iff_ok (getProductsAdmin detectLocale localizeList req listed))
  ∧ (∀ listed, vary_iff_ok (listBestSellers detectLocale localizeList req listed))
  ∧ (∀ listed, vary_iff_ok (listSignatureLineup detectLocale localizeList req listed))
  ∧ (∀ home, vary_iff_ok
               (HomeContentController.getHomeContent detectLocale localizeDoc req home))
  ∧ (∀ upserted reloaded,
       vary_iff_ok
         (HomeContentController.upsertHomeContent detectLocale localizeDoc JSON_parse
            req upserted reloaded)).
Proof.
  split; [intros; apply getProductBySlug_vary|].
  split; [intros; apply list_handler_vary|].
  split; [intros; apply list_handler_vary|].
  split; [intros; apply lineup_handler_vary|].
  split; [intros; apply lineup_handler_vary|].
  split; [intros; apply getHomeContent_vary|].
  intros; apply upsertHomeContent_vary.
Qed.

Section WriteHandlers.
Context `{Config}.
Variable detectLocale : jsval → jsstring.
Variable JSON_parse : jsstring → awaited jsval.

Lemma write_failed_status fallback code msg :
  (status (write_failed fallback code msg) = 409
   ∧ typeof_string code = Some (js "PRODUCT_NAME_DUPLICATE"))
  ∨ (status (write_failed fallback code msg) = 400
     ∧ typeof_string code ≠ Some (js "PRODUCT_NAME_DUPLICATE")).
Proof. unfold write_failed. case_bool_decide; [by left|by right]. Qed.

Lemma createProduct_created req created :
  status (createProduct detectLocale JSON_parse req created) = 201 →
  ∃ body obj,
    parsed_body JSON_parse req = Resolved body
    ∧ is_object body = true
    ∧ (truthy (get (get body (js "name_i18n")) (js "vi")) = true
       ∨ truthy (get (get body (js "name_i18n")) (js "en")) = true)
    ∧ bad_price (get body (js "price")) = false
    ∧ created body = Resolved obj
    ∧ json (createProduct detectLocale JSON_parse req created)
      = attachMetaFields obj (request_locale detectLocale req).
Proof.
  unfold createProduct. fold (parsed_body JSON_parse req).
  destruct (parsed_body JSON_parse req) as [body|code msg].
  - destruct (negb (truthy body) || negb (is_object body)) eqn:E1; [done|].
    destruct (negb (truthy (get body (js "name_i18n"))) || _) eqn:E2; [done|].
    destruct (bad_price _) eqn:E3; [done|].
    destruct (negb (is_undefined _) && _) eqn:E4; [done|].
    destruct (created body) as [obj|code msg] eqn:E5.
    + intros _. exists body, obj. apply orb_false_iff in E1 as [_ E1].
      apply negb_false_iff in E1. apply orb_false_iff in E2 as [_ E2].
      apply andb_false_iff in E2. rewrite !negb_false_iff in E2. done.
    + by destruct (write_failed_status (js "Create product failed") code msg) as [[-> _]|[-> _]].
  - by destruct (write_failed_status (js "Create product failed") code msg) as [[-> _]|[-> _]].
Qed.

Lemma createProduct_conflict req created :
  status (createProduct detectLocale JSON_parse req created) = 409 →
  ∃ code msg,
    typeof_string code = Some (js "PRODUCT_NAME_DUPLICATE")
    ∧ (parsed_body JSON_parse req = Rejected code msg
       ∨ ∃ body, parsed_body JSON_parse req = Resolved body
                 ∧ created body = Rejected code msg).
Proof.
  unfold createProduct. fold (parsed_body JSON_parse req).
  destruct (parsed_body JSON_parse req) as [body|code msg].
  - destruct (negb (truthy body) || negb (is_object body)); [done|].
    destruct (negb (truthy (get body (js "name_i18n"))) || _); [done|].
    destruct (bad_price _); [done|].
    destruct (negb (is_undefined _) && _); [done|].
    destruct (created body) as [obj|code msg] eqn:E5; [done|].
    destruct (write_failed_status (js "Create product failed") code msg) as [[_ Hc]|[-> _]];
      [|done].
    intros _. exists code, msg. split; [done|]. right. by exists body.
  - destruct (write_failed_status (js "Create product failed") code msg) as [[_ Hc]|[-> _]];
      [|done].
    intros _. exists code, msg. split; [done|]. by left.
Qed.

Lemma createProduct_statuses req created :
  status (createProduct detectLocale JSON_parse req created) = 201
  ∨ status (createProduct detectLocale JSON_parse req created) = 400
  ∨ status (createProduct detectLocale JSON_parse req created) = 409.
Proof.
  unfold createProduct.
  repeat match goal with
         | |- context [write_failed ?f ?c ?m] =>
             destruct (write_failed_status f c m) as [[-> _]|[-> _]]
         | |- context [match ?x with _ => _ end] => destruct x
         end; auto.
Qed.

End WriteHandlers.

(** X14. [createProduct] answers 201, 400 or 409 and nothing else.  It
    answers 201 only for a body that (parsed when it came as text) is an
    object with a truthy [vi] or [en] name and a price that is a number
    not below zero, and then with the document the repository resolved to
    and its meta fields; it answers 409 only when the parse or the
    repository rejected with the code [PRODUCT_NAME_DUPLICATE]. *)
Theorem createProduct_status_codes `{Config}
    (detectLocale : jsval → jsstring) (JSON_parse : jsstring → awaited jsval)
    (req : Request) (created : jsval → awaited jsval) :
  let response := createProduct detectLocale JSON_parse req created in
  (status response = 201 ∨ status response = 400 ∨ status response = 409)
  ∧ (status response = 201 →
     ∃ body obj,
       parsed_body JSON_parse req = Resolved body
       ∧ is_object body = true
       ∧ (truthy (get (get body (js "name_i18n")) (js "vi")) = true
          ∨ truthy (get (get body (js "name_i18n")) (js "en")) = true)
       ∧ bad_price (get body (js "price")) = false
       ∧ created body = Resolved obj
       ∧ json response = attachMetaFields obj (request_locale detectLocale req))
  ∧ (status response = 409 →
     ∃ code msg,
       typeof_string code = Some (js "PRODUCT_NAME_DUPLICATE")
       ∧ (parsed_body JSON_parse req = Rejected code msg
          ∨ ∃ body, parsed_body JSON_parse req = Resolved body
                    ∧ created body = Rejected code msg)).
Proof.
  intros response. split; [apply createProduct_statuses|].
  split; [apply createProduct_created|apply createProduct_conflict].
Qed.

(** ** Locale signals *)

(** X15. Without a [locale] query parameter and with no or a blank
    [Accept-Language] header the read handlers do not localise: the
    answer is the document (or the items) with the meta fields attached
    and the bundles left as they are, whatever [localizeDoc] and
    [localizeList] would do. *)
Theorem no_locale_signal_skips_localization `{Config}
    (detectLocale : jsval → jsstring)
    (localizeDoc : jsval → jsval → list jsstring → jsval)
    (localizeList : list jsval → jsval → list jsstring → list jsval)
    (req : Request) :
  truthy (get (query req) (js "locale")) = false →
  (∀ s, headers req !! js "accept-language" = Some (VStr s) → nonblank s = false) →
  let locale := VStr (detectLocale (default VUndefined (headers req !! js "accept-language"))) in
  shouldLocalize req = false
  ∧ (∀ obj, getProductBySlug detectLocale localizeDoc req (Resolved (Some obj))
            = respond_vary (attachMetaFields obj locale))
  ∧ (∀ result, getProducts detectLocale localizeList req (Resolved result)
               = respond_vary
                   (list_json result ((λ item, attachMetaFields item locale) <$> items result)))
  ∧ (∀ plain, HomeContentController.getHomeContent detectLocale localizeDoc req
                (Resolved (Some plain))
              = respond_vary plain).
Proof.
  intros Hq Hh locale.
  assert (Hs : shouldLocalize req = false).
  { unfold shouldLocalize. rewrite Hq, andb_false_r.
    destruct (headers req !! js "accept-language") as [[]|] eqn:E; try done.
    by apply Hh. }
  assert (Hl : request_locale detectLocale req = locale).
  { unfold request_locale, vor. by rewrite Hq. }
  split; [done|]. split; [|split].
  - intros obj. unfold getProductBySlug. by rewrite Hs, Hl.
  - intros result. unfold getProducts, list_handler. by rewrite Hs, Hl.
  - intros plain. unfold HomeContentController.getHomeContent, HomeContentController.render.
    by rewrite Hs.
Qed.

Lemma no_locale_signal_skips_localization_witness :
  shouldLocalize bare_request = false.
Proof.
  apply (@no_locale_signal_skips_localization vi_default (λ _, js "vi")
           (λ v _ _, v) (λ l _ _, l) bare_request); [reflexivity|].
  intros s Hs. vm_compute in Hs. injection Hs as <-. reflexivity.
Defined.

(** X16. A truthy [locale] query parameter is the locale of the request
    and switches localisation on, whatever the [Accept-Language] header
    says and whatever [detectLocale] would make of it. *)
Theorem query_locale_overrides_header
    (detectLocale : jsval → jsstring) (req : Request) (locale : jsval) :
  get (query req) (js "locale") = locale → truthy locale = true →
  request_locale detectLocale req = locale ∧ shouldLocalize req = true.
Proof.
  intros Hq Ht. split.
  - unfold request_locale, vor. by rewrite Hq, Ht.
  - unfold shouldLocalize. rewrite Hq, Ht.
    assert (truthy (query req) = true) as ->; [|done].
    destruct (query req) as [| | | |[|c s]| |]; try done; by subst locale.
Qed.

Lemma query_locale_overrides_header_witness :
  request_locale (λ _, js "en") vi_query_request = VStr (js "vi")
  ∧ shouldLocalize vi_query_request = true.
Proof.
  apply (query_locale_overrides_header (λ _, js "en") vi_query_request (VStr (js "vi")));
    reflexivity.
Defined.

(** ** Meta fields and fallbacks *)

Lemma get_attachMetaFields_other `{Config} product locale k :
  k ≠ js "metaTitle" → k ≠ js "metaDescription" →
  get (attachMetaFields product locale) k = get product k.
Proof.
  intros Ht Hd. unfold attachMetaFields.
  rewrite <- (get_spread product k). unfold get. by rewrite !lookup_insert_ne.
Qed.

Lemma insert_twice (m : gmap jsstring jsval) (i j : jsstring) (x y : jsval) :
  <[i:=x]> (<[j:=y]> (<[i:=x]> (<[j:=y]> m))) = <[i:=x]> (<[j:=y]> m).
Proof.
  apply map_eq. intros k. rewrite !lookup_insert. by repeat case_decide.
Qed.

(** X17. Attaching the meta fields twice is attaching them once: the
    second pass reads the same bundles and writes the same two fields. *)
Theorem attachMetaFields_idempotent `{Config} (product locale : jsval) :
  attachMetaFields (attachMetaFields product locale) locale
  = attachMetaFields product locale.
Proof.
  assert (Hb : ∀ field : string,
             js field ≠ js "metaTitle" → js field ≠ js "metaDescription" →
             get (attachMetaFields product locale) (js field) = get product (js field))
    by (intros; by apply get_attachMetaFields_other).
  unfold attachMetaFields at 1.
  rewrite !Hb by (intros Heq; vm_compute in Heq; discriminate).
  unfold attachMetaFields. cbn [spread]. f_equal. apply insert_twice.
Qed.

Lemma elem_of_array_from_set xs x : x ∈ array_from_set xs ↔ x ∈ xs.
Proof. rewrite array_from_set_first_occurrences. apply first_occurrences_elem. Qed.

Lemma en_vi_in_chain `{Config} locale :
  js "en" ∈ buildLocalePriority locale ∧ js "vi" ∈ buildLocalePriority locale.
Proof.
  unfold buildLocalePriority. rewrite !elem_of_array_from_set, !list_elem_of_omap.
  split.
  - exists (VStr (js "en")). split; [|done]. set_solver.
  - exists (VStr (js "vi")). split; [|done]. set_solver.
Qed.

Lemma pick_loop_finds value locales loc v :
  loc ∈ locales → get value loc = VStr v → nonblank v = true →
  is_Some (pick_loop value locales).
Proof.
  intros Hin Hg Hn. destruct (pick_loop value locales) eqn:E; [by eexists|].
  rewrite pick_loop_None, Forall_forall in E. specialize (E loc Hin).
  assert (text_at value loc = Some v) by by apply text_at_Some. congruence.
Qed.

Lemma locale_first_in_chain `{Config} l :
  nonblank l = true → ∃ rest, buildLocalePriority (VStr l) = l :: rest.
Proof.
  intros Hl. unfold buildLocalePriority. rewrite array_from_set_first_occurrences.
  csimpl. rewrite Hl. csimpl. by eexists.
Qed.

(** X18. The fixed fallbacks make a bundle resolve whenever it can: a
    bundle (an object) with non-blank [en] or [vi] text resolves to some
    text along the chain of any requested locale, and a bundle with
    non-blank text in the requested locale resolves to exactly that
    text. *)
Theorem en_vi_fallback_always_resolves `{Config}
    (bundle : gmap jsstring jsval) (locale : jsval) :
  (∀ loc v, loc = js "en" ∨ loc = js "vi" →
            bundle !! loc = Some (VStr v) → nonblank v = true →
            is_Some (pickLocalizedValue (VObj bundle) (buildLocalePriority locale)))
  ∧ (∀ l v, locale = VStr l → nonblank l = true →
            bundle !! l = Some (VStr v) → nonblank v = true →
            pickLocalizedValue (VObj bundle) (buildLocalePriority locale) = Some v).
Proof.
  split.
  - intros loc v Hloc Hb Hv. unfold pickLocalizedValue. simpl.
    apply (pick_loop_finds _ _ loc v); [|by simpl; rewrite Hb|done].
    destruct (en_vi_in_chain locale) as [Hen Hvi]. by destruct Hloc as [-> | ->].
  - intros l v -> Hl Hb Hv. destruct (locale_first_in_chain l Hl) as [rest ->].
    unfold pickLocalizedValue. simpl. rewrite Hb. simpl. by rewrite Hv.
Qed.

Lemma en_vi_fallback_always_resolves_witness :
  is_Some (pickLocalizedValue (VObj {[ js "vi" := VStr ca_phe ]})
             (buildLocalePriority (H:=vi_default) (VStr (js "fr")))).
Proof.
  destruct (@en_vi_fallback_always_resolves vi_default {[ js "vi" := VStr ca_phe ]}
              (VStr (js "fr"))) as [Hr _].
  apply (Hr (js "vi") ca_phe); [by right|reflexivity|reflexivity].
Defined.

(** ** The CORS allow list *)

Import App.

Lemma split_comma_nonempty s : split_comma s ≠ [].
Proof.
  induction s as [|c r IH]; [done|]. simpl.
  destruct (c =? comma); [done|]. by destruct (split_comma r).
Qed.

Lemma split_comma_no_comma s :
  Forall (λ piece, comma ∉ piece) (split_comma s).
Proof.
  induction s as [|c r IH]; simpl.
  - constructor; [apply not_elem_of_nil|constructor].
  - destruct (c =? comma) eqn:E.
    + constructor; [apply not_elem_of_nil|done].
    + apply N.eqb_neq in E. destruct (split_comma r) as [|piece pieces].
      * constructor; [|constructor]. intros Hc%list_elem_of_singleton. congruence.
      * apply Forall_cons in IH as [Hp Hr]. constructor; [|done].
        intros [Hc|Hin]%elem_of_cons; [congruence|done].
Qed.

Lemma trimStart_suffix s : ∃ l, s = l ++ trimStart s ∧ Forall (λ c, is_space c = true) l.
Proof.
  induction s as [|c r (l & Hl & Hs)]; [by exists []|]. simpl.
  destruct (is_space c) eqn:E; [|by exists []].
  exists (c :: l). split; [by rewrite Hl at 1|by constructor].
Qed.

Lemma trimStart_elem s x : x ∈ trimStart s → x ∈ s.
Proof.
  destruct (trimStart_suffix s) as (l & Hl & _). intros Hx. rewrite Hl.
  apply elem_of_app. by right.
Qed.

Lemma trim_elem s x : x ∈ trim s → x ∈ s.
Proof.
  unfold trim, trimEnd. rewrite elem_of_reverse. intros Hx%trimStart_elem.
  rewrite elem_of_reverse in Hx. by apply trimStart_elem.
Qed.

Lemma trimStart_head s c : head (trimStart s) = Some c → is_space c = false.
Proof.
  induction s as [|x r IH]; [done|]. simpl.
  destruct (is_space x) eqn:E; [done|]. by intros [= <-].
Qed.

Lemma trimStart_fixed s :
  (∀ c, head s = Some c → is_space c = false) → trimStart s = s.
Proof. destruct s as [|c r]; [done|]. simpl. intros Hh. by rewrite (Hh c). Qed.

Lemma trimEnd_last s c : last (trimEnd s) = Some c → is_space c = false.
Proof.
  unfold trimEnd. rewrite last_reverse. apply trimStart_head.
Qed.

Lemma trimEnd_fixed s :
  (∀ c, last s = Some c → is_space c = false) → trimEnd s = s.
Proof.
  intros Hl. unfold trimEnd. rewrite trimStart_fixed; [apply reverse_involutive|].
  intros c. rewrite head_reverse. apply Hl.
Qed.

Lemma trimEnd_prefix s : ∃ l, s = trimEnd s ++ l.
Proof.
  destruct (trimStart_suffix (reverse s)) as (l & Hl & _). exists (reverse l).
  unfold trimEnd. by rewrite <- reverse_app, <- Hl, reverse_involutive.
Qed.

Lemma trim_trim s : trim (trim s) = trim s.
Proof.
  unfold trim at 1.
  assert (Hs : trimStart (trim s) = trim s).
  { apply trimStart_fixed. intros c Hc. apply (trimStart_head s).
    unfold trim in Hc. destruct (trimEnd_prefix (trimStart s)) as (l & Hl).
    rewrite Hl. by destruct (trimEnd (trimStart s)). }
  rewrite Hs. apply trimEnd_fixed. intros c. apply trimEnd_last.
Qed.

Lemma split_comma_piece piece :
  comma ∉ piece → split_comma piece = [piece].
Proof.
  induction piece as [|c r IH]; [done|]. intros [Hc Hr]%not_elem_of_cons. simpl.
  destruct (c =? comma) eqn:E; [apply N.eqb_eq in E; congruence|]. by rewrite IH.
Qed.

Lemma split_comma_app piece s :
  comma ∉ piece → split_comma (piece ++ comma :: s) = piece :: split_comma s.
Proof.
  induction piece as [|c r IH]; [done|]. intros [Hc Hr]%not_elem_of_cons. simpl.
  destruct (c =? comma) eqn:E; [apply N.eqb_eq in E; congruence|]. by rewrite IH.
Qed.

(** Splitting undoes joining, for pieces that hold no comma. *)
Lemma split_join pieces :
  pieces ≠ [] → Forall (λ piece, comma ∉ piece) pieces →
  split_comma (join_comma pieces) = pieces.
Proof.
  intros Hne Hp. induction Hp as [|piece rest Hpiece Hrest IH]; [done|].
  destruct rest as [|next rest]; [by apply split_comma_piece|].
  change (join_comma (piece :: next :: rest))
    with (piece ++ comma :: join_comma (next :: rest)).
  rewrite split_comma_app by done. by rewrite IH.
Qed.

(** Joining undoes splitting. *)
Lemma join_split s : join_comma (split_comma s) = s.
Proof.
  induction s as [|c r IH]; [done|]. simpl.
  pose proof (split_comma_nonempty r) as Hne.
  destruct (c =? comma) eqn:E.
  - apply N.eqb_eq in E as ->.
    destruct (split_comma r) as [|piece pieces]; [done|].
    change (join_comma ([] :: piece :: pieces)) with (comma :: join_comma (piece :: pieces)).
    by rewrite IH.
  - destruct (split_comma r) as [|piece pieces]; [done|].
    destruct pieces as [|next pieces]; simpl in *; by rewrite <- IH.
Qed.

Lemma filter_truthy_str l :
  List.filter truthy_str l = List.filter (λ e, bool_decide (e ≠ [])) l.
Proof.
  induction l as [|e l IH]; [done|]. simpl. rewrite IH.
  by destruct e.
Qed.

(** X20. The allow list is made of the comma-separated pieces of
    [CORS_ORIGINS], in their order, each with the white space around it
    removed, and without those that are empty then: for pieces that hold
    no comma, the variable set to the pieces joined by commas gives
    exactly their trimmed forms that are not empty, and every value of
    the variable is such a join.  So no entry is empty, holds a comma, or
    changes under trimming, and an unset or empty variable gives the
    empty list. *)
Theorem allowList_entries (CORS_ORIGINS : option jsstring) :
  (∀ pieces, pieces ≠ [] → Forall (λ piece, comma ∉ piece) pieces →
             allowList (Some (join_comma pieces))
             = List.filter (λ e, bool_decide (e ≠ [])) (trim <$> pieces))
  ∧ (∀ s, CORS_ORIGINS = Some s →
          ∃ pieces, pieces ≠ [] ∧ Forall (λ piece, comma ∉ piece) pieces
                    ∧ join_comma pieces = s)
  ∧ Forall (λ entry, entry ≠ [] ∧ (comma ∉ entry) ∧ trim entry = entry)
      (allowList CORS_ORIGINS)
  ∧ allowList None = []
  ∧ allowList (Some []) = [].
Proof.
  split; [|split; [|split; [|by split]]].
  - intros pieces Hne Hp. unfold allowList.
    assert (Hs : default [] (or_else (Some (join_comma pieces)) (Some []))
                 = join_comma pieces).
    { unfold or_else. by destruct (join_comma pieces). }
    rewrite Hs, split_join by done. apply filter_truthy_str.
  - intros s _. exists (split_comma s).
    split; [apply split_comma_nonempty|]. split; [apply split_comma_no_comma|apply join_split].
  - unfold allowList. apply Forall_forall. intros entry Hin.
    apply list_elem_of_In, filter_In in Hin as [Hin Ht].
    apply list_elem_of_In, list_elem_of_fmap in Hin as (piece & -> & Hp).
    split; [by apply truthy_str_nonempty|]. split; [|apply trim_trim].
    intros Hc%trim_elem.
    pose proof (split_comma_no_comma (default [] (or_else CORS_ORIGINS (Some [])))) as Hno.
    rewrite Forall_forall in Hno. by apply (Hno piece).
Qed.

Lemma blank_pieces s :
  Forall (λ c, is_space c = true ∨ c = comma) s →
  Forall (λ piece, trim piece = []) (split_comma s).
Proof.
  induction 1 as [|c r Hc _ IH]; simpl; [by constructor|].
  destruct (c =? comma) eqn:E; [by constructor|].
  apply N.eqb_neq in E. destruct Hc as [Hc|]; [|done].
  destruct (split_comma r) as [|piece pieces]; [constructor; [|done]|].
  - unfold trim. simpl. by rewrite Hc.
  - apply Forall_cons in IH as [Hp Hr]. constructor; [|done].
    unfold trim in *. simpl. by rewrite Hc.
Qed.

(** X21. With [CORS_ORIGINS] unset, empty, or made of commas and white
    space only, the allow list is empty and every origin is let through;
    a request without an [Origin] is let through whatever the list is;
    and with a list that is not empty an origin is let through exactly
    when it is one of the entries. *)
Theorem cors_open_when_list_empty (CORS_ORIGINS : option jsstring) :
  ((∀ s, CORS_ORIGINS = Some s → Forall (λ c, is_space c = true ∨ c = comma) s) →
   allowList CORS_ORIGINS = []
   ∧ ∀ origin, origin_allowed (allowList CORS_ORIGINS) origin = true)
  ∧ (∀ list, origin_allowed list None = true ∧ origin_allowed list (Some []) = true)
  ∧ (∀ list o, list ≠ [] → o ≠ [] →
               (origin_allowed list (Some o) = true ↔ o ∈ list)).
Proof.
  split; [|split].
  - intros Hblank.
    assert (He : allowList CORS_ORIGINS = []).
    { unfold allowList.
      assert (Hp : Forall (λ piece, trim piece = [])
                     (split_comma (default [] (or_else CORS_ORIGINS (Some []))))).
      { apply blank_pieces. destruct CORS_ORIGINS as [[|c s]|]; simpl; try by constructor.
        by apply Hblank. }
      induction Hp as [|piece pieces Hpiece _ IH]; [done|]. csimpl. by rewrite Hpiece. }
    split; [done|]. intros [o|]; [|done]. rewrite He. unfold origin_allowed. simpl.
    by destruct (negb (truthy_str o)).
  - done.
  - intros list o Hl Ho. unfold origin_allowed.
    apply truthy_str_nonempty in Ho as ->. simpl.
    destruct list as [|x l]; [done|]. simpl.
    case_bool_decide; by split.
Qed.

Lemma cors_open_when_list_empty_witness :
  allowList (Some blank_origins) = []
  ∧ origin_allowed (allowList (Some blank_origins)) (Some (js "https://evil.example")) = true.
Proof.
  destruct (cors_open_when_list_empty (Some blank_origins)) as [Hopen _].
  destruct Hopen as [He Ha].
  - intros s [= <-].
    repeat (constructor; [first [left; reflexivity | right; reflexivity]|]). constructor.
  - split; [exact He|apply Ha].
Defined.

(** ** The publish interval *)

Import BlogScheduler.

Lemma intervalMs_finite q :
  ¬ (q == 0)%Q →
  intervalMs (Finite q) = if Qle_bool q 30000 then Finite 30000 else Finite q.
Proof.
  intros Hq. unfold intervalMs, num_or.
  destruct (Qeq_bool q 0) eqn:E; [by apply Qeq_bool_iff in E|]. simpl.
  change (30 * 1000)%Q with 30000%Q. by destruct (Qle_bool q 30000).
Qed.

Lemma intervalMs_zero q : (q == 0)%Q → intervalMs (Finite q) = Finite 120000.
Proof.
  intros Hq. unfold intervalMs, num_or. apply Qeq_bool_iff in Hq. by rewrite Hq.
Qed.

Lemma intervalMs_above q : (30000 < q)%Q → intervalMs (Finite q) = Finite q.
Proof.
  intros Hq.
  assert (Hnz : ¬ (q == 0)%Q).
  { intros Hz. rewrite Hz in Hq. unfold Qlt in Hq. simpl in Hq. lia. }
  rewrite intervalMs_finite by done. destruct (Qle_bool q 30000) eqn:E; [|done].
  apply Qle_bool_iff in E. apply Qlt_not_le in Hq. by destruct Hq.
Qed.

Lemma setInterval_within q :
  (1 <= q)%Q → (q <= TIMEOUT_MAX)%Q → setInterval (Finite q) = Finite q.
Proof.
  intros H1 H2. unfold setInterval.
  apply Qle_bool_iff in H1 as ->. by apply Qle_bool_iff in H2 as ->.
Qed.

Lemma setInterval_above q :
  (TIMEOUT_MAX < q)%Q → setInterval (Finite q) = Finite 1.
Proof.
  intros Hq. unfold setInterval. destruct (Qle_bool q TIMEOUT_MAX) eqn:E.
  - apply Qle_bool_iff in E. apply Qlt_not_le in Hq. by destruct Hq.
  - by rewrite andb_false_r.
Qed.

(** X22. The timer of [startBlogScheduler] repeats with a delay between
    30000 ms and [2 ** 31 - 1] ms, unless the environment variable
    evaluates to more than [2 ** 31 - 1] (or to [Infinity]): then the
    floor of 30 seconds is of no use and the timer repeats every
    millisecond.  The delay is the default of two minutes when the
    variable evaluates to [NaN] (unset or not a number) or zero, 30000
    when it evaluates to any other number up to 30000 or to [-Infinity],
    and the value itself when that is above 30000 and not above
    [2 ** 31 - 1]. *)
Theorem startBlogScheduler_delay (parsed : number) :
  (above_timeout_max parsed ↔ startBlogScheduler parsed = Finite 1)
  ∧ (¬ above_timeout_max parsed →
     ∃ q, startBlogScheduler parsed = Finite q ∧ (30000 <= q)%Q ∧ (q <= TIMEOUT_MAX)%Q)
  ∧ (parsed = NaN → startBlogScheduler parsed = Finite 120000)
  ∧ (∀ q, parsed = Finite q → (q == 0)%Q → startBlogScheduler parsed = Finite 120000)
  ∧ (∀ q, parsed = Finite q → ¬ (q == 0)%Q → (q <= 30000)%Q →
          startBlogScheduler parsed = Finite 30000)
  ∧ (parsed = NegInfinity → startBlogScheduler parsed = Finite 30000)
  ∧ (∀ q, parsed = Finite q → (30000 < q)%Q → (q <= TIMEOUT_MAX)%Q →
          startBlogScheduler parsed = Finite q).
Proof.
  assert (Hzero : ∀ q, (q == 0)%Q → startBlogScheduler (Finite q) = Finite 120000).
  { intros q Hq. unfold startBlogScheduler. by rewrite intervalMs_zero. }
  assert (Hlow : ∀ q, ¬ (q == 0)%Q → (q <= 30000)%Q →
                      startBlogScheduler (Finite q) = Finite 30000).
  { intros q Hnz Hle. unfold startBlogScheduler. rewrite intervalMs_finite by done.
    apply Qle_bool_iff in Hle. by rewrite Hle. }
  assert (Hmid : ∀ q, (30000 < q)%Q → (q <= TIMEOUT_MAX)%Q →
                      startBlogScheduler (Finite q) = Finite q).
  { intros q Hq Hmax. unfold startBlogScheduler. rewrite intervalMs_above by done.
    apply setInterval_within; [|done].
    apply Qlt_le_weak. eapply Qle_lt_trans; [|exact Hq]. done. }
  assert (Hhigh : ∀ q, (TIMEOUT_MAX < q)%Q → startBlogScheduler (Finite q) = Finite 1).
  { intros q Hq. unfold startBlogScheduler. rewrite intervalMs_above.
    - by apply setInterval_above.
    - eapply Qlt_trans; [|exact Hq]. done. }
  assert (Hcases : ∀ q, ¬ (TIMEOUT_MAX < q)%Q →
             ∃ r, startBlogScheduler (Finite q) = Finite r
                  ∧ (30000 <= r)%Q ∧ (r <= TIMEOUT_MAX)%Q).
  { intros q Hq. apply Qnot_lt_le in Hq.
    destruct (Qeq_dec q 0) as [Hz|Hnz]; [exists 120000%Q; by rewrite Hzero|].
    destruct (Qlt_le_dec 30000 q) as [Hgt|Hle].
    - exists q. rewrite Hmid by done. split; [done|]. split; [by apply Qlt_le_weak|done].
    - exists 30000%Q. by rewrite Hlow. }
  split; [|split; [|split; [by intros ->|split; [by intros q ->; apply Hzero|
    split; [by intros q ->; apply Hlow|split; [by intros ->|by intros q ->; apply Hmid]]]]]].
  - destruct parsed as [| | |q]; simpl; try done.
    split; [apply Hhigh|]. intros Hd.
    destruct (Qlt_le_dec TIMEOUT_MAX q) as [Hgt|Hle]; [done|].
    destruct (Hcases q) as (r & Hr & Hlo & _); [by apply Qle_not_lt|].
    rewrite Hr in Hd. injection Hd as ->. by apply Qle_not_lt in Hlo.
  - destruct parsed as [| | |q]; simpl.
    + intros _. by exists 120000%Q.
    + intros _. by exists 30000%Q.
    + by intros [].
    + apply Hcases.
Qed.

(** ** [updateProduct] *)

Section UpdateHandler.
Context `{Config}.
Variable detectLocale : jsval → jsstring.
Variable JSON_parse : jsstring → awaited jsval.

(** X23. [updateProduct] answers 200, 400, 404 or 409, and each status
    tells what happened: 404 only when the repository found no product,
    409 only when it rejected with [PRODUCT_NAME_DUPLICATE], 200 only
    with the updated document and its meta fields, and 400 only for a
    body that is not an object, has a [price] that is there and is not a
    number of at least zero, has [temperatureOptions] that are there and
    are not an array of the four options, or when the repository
    rejected with another code. *)
Theorem updateProduct_status_codes (req : Request)
    (updated : jsval → awaited (option jsval)) :
  let response := updateProduct detectLocale JSON_parse req updated in
  let body := lenient_body JSON_parse req in
  (status response = 400
   ∧ (is_object body = false
      ∨ (is_undefined (get body (js "price")) = false
         ∧ bad_price (get body (js "price")) = true)
      ∨ (is_undefined (get body (js "temperatureOptions")) = false
         ∧ bad_temperatureOptions (get body (js "temperatureOptions")) = true)
      ∨ ∃ code msg, updated body = Rejected code msg
                    ∧ typeof_string code ≠ Some (js "PRODUCT_NAME_DUPLICATE")))
  ∨ (status response = 409
     ∧ ∃ code msg, updated body = Rejected code msg
                   ∧ typeof_string code = Some (js "PRODUCT_NAME_DUPLICATE"))
  ∨ (status response = 404 ∧ updated body = Resolved None)
  ∨ (status response = 200
     ∧ ∃ obj, updated body = Resolved (Some obj)
              ∧ json response = attachMetaFields obj (request_locale detectLocale req)).
Proof.
  intros response body. subst response. unfold updateProduct.
  fold (lenient_body JSON_parse req). fold body.
  destruct (negb (truthy body) || negb (is_object body)) eqn:E1.
  { left. split; [done|]. left. apply orb_true_iff in E1 as [E1|E1].
    - apply negb_true_iff in E1. by destruct body as [| | | |[|]| |].
    - by apply negb_true_iff in E1. }
  destruct (negb (is_undefined (get body (js "price"))) && _) eqn:E2.
  { left. split; [done|]. right. left. apply andb_true_iff in E2 as [E2 E2'].
    by apply negb_true_iff in E2. }
  destruct (negb (is_undefined (get body (js "temperatureOptions"))) && _) eqn:E3.
  { left. split; [done|]. right. right. left. apply andb_true_iff in E3 as [E3 E3'].
    by apply negb_true_iff in E3. }
  destruct (updated body) as [[obj|]|code msg] eqn:E4.
  - right. right. right. split; [done|]. by exists obj.
  - right. right. left. done.
  - destruct (write_failed_status (js "Update failed") code msg) as [[Hs Hc]|[Hs Hc]].
    + right. left. split; [done|]. by exists code, msg.
    + left. split; [done|]. right. right. right. by exists code, msg.
Qed.

End UpdateHandler.

(** ** Deleting and the name check *)

Lemma elem_of_without db id x : x ∈ without id db → x ∈ db.
Proof.
  induction db as [|p r IH]; [done|]. simpl.
  destruct (_id p =? id); [by right|].
  intros [->|Hin]%elem_of_cons; [by left|right; by apply IH].
Qed.

Lemma elem_of_without_id db id x :
  NoDup (_id <$> db) → x ∈ without id db → _id x ≠ id.
Proof.
  induction db as [|p r IH]; [by intros _ ?%elem_of_nil|]. csimpl.
  intros [Hp Hr]%NoDup_cons. destruct (_id p =? id) eqn:E.
  - apply N.eqb_eq in E. subst. intros Hin Hx. apply Hp.
    apply list_elem_of_fmap. by exists x.
  - apply N.eqb_neq in E. intros [->|Hin]%elem_of_cons; [done|by apply IH].
Qed.

(** X24. Deleting a product frees its name: where [_id]s are unique, a
    name that conflicted with no stored product but the deleted one goes
    through the name check of [create] afterwards and on to [save]; a
    conflict found after the delete is one with a product that was stored
    before and is not the deleted one. *)
Theorem delete_frees_name `{Builtins} `{Config}
    (others_valid : gmap jsstring jsval → bool)
    (db : Collection) (id new_id : ObjectId) (data : Payload) :
  NoDup (_id <$> db) →
  (∀ category name,
     vi_en_conflict (without id db) category name None →
     vi_en_conflict db category name (Some id))
  ∧ ((∀ name, p_name_i18n data = Some name →
              ¬ vi_en_conflict db (new_category data) name (Some id)) →
     create others_valid (without id db) new_id data
     = save others_valid (without id db) (construct new_id data (new_category data))).
Proof.
  intros Hids.
  assert (Hmono : ∀ category name,
            vi_en_conflict (without id db) category name None →
            vi_en_conflict db category name (Some id)).
  { intros category name (q & loc & v & Hin & Hcat & _ & Hrest).
    exists q, loc, v. split; [by eapply elem_of_without|]. split; [done|].
    split; [|done]. intros [= Heq]. by apply (elem_of_without_id db id q). }
  split; [done|]. intros Hfree. unfold create.
  destruct (p_name_i18n data) as [name|] eqn:Hname; [|done].
  destruct (ensureUniqueName_cases (without id db) (Some (new_category data)) (Some name) None)
    as [-> | Hd]; [done|].
  apply ensureUniqueName_duplicate in Hd as [_ Hconf].
  by destruct (Hfree name eq_refl (Hmono _ _ Hconf)).
Qed.

Lemma delete_frees_name_witness :
  create (H:=ascii_builtins) (H0:=vi_default) sample_others_valid
    (without 1 [caramel_stored]) 2 caramel_again
  = save (H:=ascii_builtins) (H0:=vi_default) sample_others_valid
      (without 1 [caramel_stored])
      (construct (H:=ascii_builtins) 2 caramel_again (new_category caramel_again)).
Proof.
  apply (@delete_frees_name ascii_builtins vi_default sample_others_valid
           [caramel_stored] 1 2 caramel_again); [apply NoDup_singleton|].
  intros name Hname (q & loc & v & Hin & _ & Hid & _).
  apply list_elem_of_singleton in Hin as ->. by apply Hid.
Defined.

(** ** The length limit of the slug *)

Section SlugLength.
Context `{BuiltinsSpec} `{Config}.
Variable others_valid : gmap jsstring jsval → bool.

Lemma valid_slug p :
  valid others_valid p = true →
  ∃ s, slug p = Some s ∧ s ≠ [] ∧ (length s ≤ 160)%nat.
Proof.
  unfold valid. destruct (slug p) as [s|].
  - destruct (truthy_str s) eqn:Et.
    + destruct (bool_decide (length s ≤ 160)%nat) eqn:El.
      * apply bool_decide_eq_true in El. apply truthy_str_nonempty in Et.
        intros _. by exists s.
      * simpl. rewrite andb_false_r. done.
    + simpl. rewrite andb_false_r. done.
  - simpl. rewrite andb_false_r. done.
Qed.

Lemma valid_slug_long p s :
  slug p = Some s → (160 < length s)%nat → valid others_valid p = false.
Proof.
  intros Hs Hl. apply not_true_iff_false. intros (s' & Hs' & _ & Hle)%valid_slug.
  assert (s' = s) as -> by congruence. lia.
Qed.

End SlugLength.

(** X25. The limit of 160 code units is checked on the slug before the
    loop of [ensureUniqueSlug] runs: the slug a [create] stores is a
    slug-shaped text of at most 160 code units, or that text with a
    suffix [-n] appended, which the limit does not bound. *)
Theorem create_slug_limit_before_suffix `{BuiltinsSpec} `{Config}
    (others_valid : gmap jsstring jsval → bool)
    (db : Collection) (new_id : ObjectId) (data : Payload)
    (q : IProduct) (db' : Collection) :
  create others_valid db new_id data = Some (Returns q db') →
  ∃ base, slug_shaped base ∧ base ≠ [] ∧ (length base ≤ 160)%nat
          ∧ (slug q = Some base
             ∨ ∃ n, slug q = Some (suffixed base n)
                    ∧ length (suffixed base n) = (length base + 1 + length (decimal n))%nat).
Proof.
  unfold create. destruct (ensureUniqueName _ _ _ _); [done|]. intros Hs.
  apply save_returns in Hs as (Hv & doc' & -> & _ & Hnew & _ & _ & _ & _ & _ & Hslug).
  simpl in Hnew.
  destruct Hslug as [[? _] | (_ & c & Hc & -> & _)]; [done|].
  apply valid_slug in Hv as (s & Hs & Hne & Hlen).
  destruct (preValidate_slug (construct new_id data (new_category data))) as [x Hx].
  assert (Hshape : slug_shaped s).
  { assert (s = ProductModel.slugify x) as -> by congruence. apply slugify_shaped. }
  exists s. do 3 (split; [done|]).
  rewrite (unique_candidate_of_slug db _ s Hs Hshape Hne) in Hc.
  apply probe_result in Hc as [-> | [n ->]]; [by left|].
  right. exists n. split; [done|]. unfold suffixed. rewrite length_app. simpl. lia.
Qed.

Lemma long_slug_created :
  create (H:=ascii_builtins) (H0:=vi_default) sample_others_valid
    [long_stored] 2 long_payload
  = Some (Returns long_created [long_stored; long_created]).
Proof. vm_compute. reflexivity. Qed.

Lemma create_slug_limit_before_suffix_witness :
  (∃ base, slug_shaped base ∧ base ≠ [] ∧ (length base ≤ 160)%nat
           ∧ (slug long_created = Some base
              ∨ ∃ n, slug long_created = Some (suffixed base n)
                     ∧ length (suffixed base n)
                       = (length base + 1 + length (decimal n))%nat))
  ∧ length (suffixed long_slug 2) = 162%nat.
Proof.
  split; [|reflexivity].
  exact (@create_slug_limit_before_suffix ascii_builtins ascii_builtins_spec vi_default
           sample_others_valid [long_stored] 2 long_payload long_created
           [long_stored; long_created] long_slug_created).
Defined.

(** X26. A product whose stored slug is longer than 160 code units cannot
    be updated with a payload that leaves the slug and the name it
    derives from alone: the update throws (the duplicate-name error, or
    else the validation error on the slug) and the collection stays as it
    was. *)
Theorem update_refused_for_long_slug `{BuiltinsSpec} `{Config}
    (others_valid : gmap jsstring jsval → bool)
    (db : Collection) (id : ObjectId) (data : Payload) (p : IProduct) (s : jsstring) :
  findById db id = Some p →
  slug p = Some s → slug_shaped s → (160 < length s)%nat →
  p_slug data = None →
  nameBase (paths (assign (loaded p) data)) = nameBase p →
  ∃ e, update others_valid db id data = Some (Throws e db).
Proof.
  intros Hf Hs Hshape Hlen Hslug Hname.
  assert (Hne : s ≠ []) by (intros ->; simpl in Hlen; lia).
  unfold update. rewrite Hf.
  destruct (ensureUniqueName _ _ _ _) as [e|]; [by exists e|].
  rewrite Hname.
  destruct (assign_same_slug (loaded p) data s Hs Hshape (or_introl Hslug)) as [Hs1 _].
  unfold hasSlugInBody. rewrite Hslug.
  rewrite bool_decide_eq_true_2 by done. rewrite andb_false_r.
  unfold save. rewrite (preValidate_same _ s Hs1 Hshape Hne).
  rewrite (valid_slug_long others_valid _ s Hs1 Hlen).
  by exists ValidationError.
Qed.

Lemma update_refused_for_long_slug_witness :
  ∃ e, update (H:=ascii_builtins) (H0:=vi_default) sample_others_valid
         [long_stored; long_created] 2 price_payload
       = Some (Throws e [long_stored; long_created]).
Proof.
  apply (@update_refused_for_long_slug ascii_builtins ascii_builtins_spec vi_default
           sample_others_valid [long_stored; long_created] 2 price_payload long_created
           (suffixed long_slug 2)); try reflexivity.
  - change (suffixed long_slug 2)
      with (ProductModel.slugify (H:=ascii_builtins) (suffixed long_slug 2)).
    apply slugify_shaped.
  - vm_compute. lia.
Defined.

(** ** A base that normalises to the empty string *)


Section EmptyBase.
Context `{BuiltinsSpec} `{Config}.
Variable others_valid : gmap jsstring jsval → bool.






End EmptyBase.



